(** * all-limiteds: the collection pipeline and the reporting helpers

    A shallow embedding of [getjson.py] (direct mode), [getjson_cfbypass.py]
    (bypass mode) and the pure helpers of [main.py], with the properties the
    specification states about them.

    Conventions of the embedding.
    - Python integers are [Z]; Python strings are [string].
    - The global dict [items] of the two collection scripts is a
      [gmap item_id item]; the dicts of [main.py], whose insertion order is
      observable (sorting is stable, slices take a prefix), are association
      lists with unique keys.
    - A JSON object read with [.get(key, default)] is a record whose fields
      are [option]s: [None] is an absent key.  Fields that are present have
      the type the endpoint documents.
    - The network is an oracle indexed by the number of requests made so far,
      so the same page may answer differently each time it is asked.
    - [while True] loops take fuel; running out of it is the result
      [OutOfFuel], distinct from returning and from raising.
    - The only exception of the embedding is the [KeyError] of
      [items[item_id]] on an id that was never registered.  Exceptions of
      the HTTP library (timeouts, refused connections) and errors on JSON
      whose fields do not have the documented types are not modelled, so
      the properties of the walks are stated about runs that return. *)

From stdpp Require Import gmap strings list fin_maps pretty sorting.

Local Open Scope Z_scope.

(** ** The ownership aggregator (the inner loops of [process_owners]) *)

Module Aggregator.

(** An element of [items[item_id]["owners"]]. *)
Record owner := Owner { name : string; count : Z }.

(** The [user] object of an inventory record and the record itself. *)
Record user_obj := UserObj { username : option string }.
Record inventory := Inventory { user : option user_obj }.

(** [inv.get("user", {}).get("username", "")] *)
Definition username_of (inv : inventory) : string :=
  match user inv with
  | None => ""
  | Some u => default "" (username u)
  end.

(** The [for owner in ...: if owner["name"] == username: ...; break]
    loop with its [else] branch: the first entry with that name is
    incremented and the scan stops; when the scan finds none, an entry
    with count 1 is appended. *)
Fixpoint merge_owner (owners : list owner) (uname : string) : list owner :=
  match owners with
  | [] => [Owner uname 1]
  | o :: rest =>
      if decide (name o = uname)
      then Owner (name o) (count o + 1) :: rest
      else o :: merge_owner rest uname
  end.

(** [for inv in inventories: ...] *)
Definition merge_inventories (owners : list owner) (invs : list inventory)
  : list owner :=
  foldl (λ acc inv, merge_owner acc (username_of inv)) owners invs.

Definition names (owners : list owner) : list string := name <$> owners.

Fixpoint total (owners : list owner) : Z :=
  match owners with
  | [] => 0
  | o :: rest => count o + total rest
  end.

(** Names in order of first occurrence: every later copy is removed. *)
Fixpoint first_seen (l : list string) : list string :=
  match l with
  | [] => []
  | x :: l' => x :: filter (λ y, y ≠ x) (first_seen l')
  end.

Definition inv_of (u : string) : inventory :=
  Inventory (Some (UserObj (Some u))).

End Aggregator.

Import Aggregator.

(** ** The snapshot, the network and the effects of the two scripts *)

Module Store.

(** [entry.get("id")]: an integer or a string, [None] when the key is
    absent. *)
Inductive item_id := IdInt (n : Z) | IdStr (s : string) | IdNone.

#[global] Instance item_id_eq_dec : EqDecision item_id.
Proof. solve_decision. Defined.

Definition item_id_code (k : item_id) : Z + string + unit :=
  match k with
  | IdInt n => inl (inl n)
  | IdStr s => inl (inr s)
  | IdNone => inr tt
  end.

Definition item_id_decode (c : Z + string + unit) : item_id :=
  match c with
  | inl (inl n) => IdInt n
  | inl (inr s) => IdStr s
  | inr _ => IdNone
  end.

#[global] Instance item_id_countable : Countable item_id.
Proof.
  apply (inj_countable' item_id_code item_id_decode). by intros [].
Defined.

(** A value of the global dict: [{"name": ..., "owners": [...]}]. *)
Record item := Item { item_name : string; owners : list owner }.

(** One entry of an items page. *)
Record entry := Entry { id : item_id; entry_name : option string }.

Record meta_obj := Meta { lastPage : option Z }.

(** A decoded JSON body, as far as the scripts read it: the keys [data]
    and [meta] of an items page, [inventories] and [pages] of an owners
    page, [None] for a key that is absent.  Bypass mode tests [data] with
    [isinstance(data_list, list)]; there [None] is any value that is not
    a list. *)
Record json_obj := JsonObj {
  data : option (list entry);
  meta : option meta_obj;
  inventories : option (list inventory);
  pages : option Z
}.

(** A body as text: either it decodes to an object or the decoder raises
    [JSONDecodeError]. *)
Inductive text := NotJson | JsonText (o : json_obj).

(** [json.loads] / [response.json()] *)
Definition loads (t : text) : option json_obj :=
  match t with
  | NotJson => None
  | JsonText o => Some o
  end.

(** The two URL templates, instantiated. *)
Inductive url :=
  | ItemsUrl (page : Z)
  | OwnersUrl (item : item_id) (page : Z).

Inductive event :=
  | Request (u : url)
  | Sleep (ms : Z).

(** The global dict [items], the number of requests made so far and what
    the process did, oldest first.  Delays are in milliseconds. *)
Record state := State {
  items : gmap item_id item;
  clock : nat;
  trace : list event
}.

Inductive exn := KeyError.

Inductive result (A : Type) :=
  | Ok (a : A) (st : state)
  | Raise (e : exn) (st : state)
  | OutOfFuel.
Arguments Ok {A} a st.
Arguments Raise {A} e st.
Arguments OutOfFuel {A}.

Definition M (A : Type) : Type := state → result A.

Definition ret {A} (a : A) : M A := λ st, Ok a st.

Definition bind {A B} (m : M A) (k : A → M B) : M B :=
  λ st, match m st with
        | Ok a st' => k a st'
        | Raise e st' => Raise e st'
        | OutOfFuel => OutOfFuel
        end.

Definition out_of_fuel {A} : M A := λ _, OutOfFuel.

Definition log (e : event) (st : state) : state :=
  State (items st) (clock st) (trace st ++ [e]).

(** [time.sleep] *)
Definition sleep (ms : Z) : M unit := λ st, Ok tt (log (Sleep ms) st).

(** [for x in l: body(x)] *)
Fixpoint for_each {A} (l : list A) (body : A → M unit) : M unit :=
  match l with
  | [] => ret tt
  | x :: l' => bind (body x) (λ _, for_each l' body)
  end.

(** How one pass through the body of a [while True] loop ends: with
    [return] or [break], or with a new pass at this page number. *)
Inductive control := Break | Continue (page : Z).

(** [page = ...; while True: body].  The body receives the fuel left
    for the loops it runs itself. *)
Fixpoint while_true (fuel : nat) (body : nat → Z → M control) (page : Z)
  : M unit :=
  match fuel with
  | O => out_of_fuel
  | S fuel' =>
      bind (body fuel' page)
           (λ c, match c with
                 | Break => ret tt
                 | Continue page' => while_true fuel' body page'
                 end)
  end.

(** [items[item_id] = {"name": entry.get("name", ""), "owners": []}] *)
Definition register (e : entry) : M unit :=
  λ st, Ok tt (State (<[id e := Item (default "" (entry_name e)) []]> (items st))
                     (clock st) (trace st)).

(** The [for inv in inventories] loop of [process_owners] on a non-empty
    list: [items[item_id]] is looked up (a [KeyError] when the id was
    never registered) and its owner list is updated in place. *)
Definition merge_into (item_id : item_id) (invs : list inventory) : M unit :=
  λ st, match items st !! item_id with
        | None => Raise KeyError st
        | Some it =>
            Ok tt (State (<[item_id := Item (item_name it)
                                         (merge_inventories (owners it) invs)]>
                            (items st))
                         (clock st) (trace st))
        end.

(** The requests made, in order. *)
Definition requests (tr : list event) : list url :=
  omap (λ e, match e with Request u => Some u | Sleep _ => None end) tr.

(** The pages asked of each endpoint, in order. *)
Definition items_pages (tr : list event) : list Z :=
  omap (λ e, match e with Request (ItemsUrl p) => Some p | _ => None end) tr.

Definition owners_pages (i : item_id) (tr : list event) : list Z :=
  omap (λ e, match e with
             | Request (OwnersUrl j p) => if decide (j = i) then Some p else None
             | _ => None
             end) tr.

Definition init : state := State ∅ 0 [].

(** The state after [n] rounds of asking for [u] and then waiting. *)
Definition retried (u : url) (delay : Z) (n : nat) (st : state) : state :=
  State (items st) (clock st + n)%nat
        (trace st ++ mjoin (replicate n [Request u; Sleep delay])).

End Store.

Import Store.

Declare Scope walker_scope.
Delimit Scope walker_scope with walker.
Notation "x <- m ;; k" := (bind m (λ x, k))
  (at level 100, m at next level, right associativity) : walker_scope.
Notation "m ;;; k" := (bind m (λ _, k))
  (at level 100, right associativity) : walker_scope.

(** ** Direct mode: [getjson.py] *)

Module Direct.

Local Open Scope walker_scope.

Definition RATE_LIMIT_DELAY : Z := 10000.
Definition PAGE_DELAY : Z := 600.

(** A [requests.Response], as far as the script reads it. *)
Record response := Response {
  resp_url : url;
  status_code : Z;
  body : text
}.

(** What the server answers to the [n]-th request of the run: a status
    and a body. *)
Definition network := nat → url → Z * text.

Section walker.

Variable net : network.

(** [requests.get(url, timeout=REQUEST_TIMEOUT)] *)
Definition get (u : url) : M response :=
  λ st, Ok (Response u (net (clock st) u).1 (net (clock st) u).2)
           (State (items st) (S (clock st)) (trace st ++ [Request u])).

Definition fetch_items (page : Z) : M response := get (ItemsUrl page).

Definition fetch_owners (item_id : item_id) (page : Z) : M response :=
  get (OwnersUrl item_id page).

Fixpoint handle_rate_limit (fuel : nat) (r : response) : M response :=
  if decide (status_code r = 429) then
    match fuel with
    | O => out_of_fuel
    | S fuel' =>
        sleep RATE_LIMIT_DELAY ;;;
        r' <- get (resp_url r) ;;
        handle_rate_limit fuel' r'
    end
  else ret r.

(** The body of the loop of [process_owners] from [try:] on. *)
Definition owners_step (item_id : item_id) (page : Z) (r : response)
  : M control :=
  match loads (body r) with
  | None => sleep RATE_LIMIT_DELAY ;;; ret (Continue page)
  | Some json_data =>
      match default [] (inventories json_data) with
      | [] => ret Break
      | invs =>
          merge_into item_id invs ;;;
          if decide (default 0 (pages json_data) ≤ page) then ret Break
          else sleep PAGE_DELAY ;;; ret (Continue (page + 1))
      end
  end.

Definition owners_pass (item_id : item_id) (fuel : nat) (page : Z)
  : M control :=
  r <- fetch_owners item_id page ;;
  r <- handle_rate_limit fuel r ;;
  owners_step item_id page r.

Definition process_owners (fuel : nat) (item_id : item_id) : M unit :=
  while_true fuel (owners_pass item_id) 1.

(** The body of [for entry in data.get("data", [])]. *)
Definition process_entry (fuel : nat) (e : entry) : M unit :=
  register e ;;; process_owners fuel (id e).

(** The body of the loop of [process_all_items] from [try:] on. *)
Definition items_step (fuel : nat) (page : Z) (r : response) : M control :=
  match loads (body r) with
  | None => sleep RATE_LIMIT_DELAY ;;; ret (Continue page)
  | Some json_data =>
      for_each (default [] (data json_data)) (process_entry fuel) ;;;
      let last_page := default page (meta json_data ≫= lastPage) in
      if decide (last_page ≤ page) then ret Break
      else sleep PAGE_DELAY ;;; ret (Continue (page + 1))
  end.

Definition items_pass (fuel : nat) (page : Z) : M control :=
  r <- fetch_items page ;;
  r <- handle_rate_limit fuel r ;;
  items_step fuel page r.

Definition process_all_items (fuel : nat) : M unit :=
  while_true fuel items_pass 1.

End walker.

End Direct.

(** ** Bypass mode: [getjson_cfbypass.py] *)

Module Bypass.

Local Open Scope walker_scope.

Definition RETRY_DELAY : Z := 10000.
Definition PAGE_DELAY : Z := 600.

(** The proxy's answer as [response.json()] sees it: [None] when it does
    not decode, otherwise an object that may lack ["solution"], whose
    value may lack ["response"].  The solution text stands for what is
    left of it after [re.sub(r"<.*?>", "", solution)], which is all the
    walker ever decodes. *)
Record solution_obj := Solution { response : option text }.
Record envelope_obj := Envelope { solution : option solution_obj }.
Definition envelope := option envelope_obj.

Definition network := nat → url → envelope.

(** [data["solution"]["response"]], [None] for the [KeyError] and the
    [JSONDecodeError] that the [except] clause catches. *)
Definition solution_text (env : envelope) : option text :=
  e ← env; s ← solution e; response s.

Section walker.

Variable net : network.

(** [requests.post(BASE_API_PROXY, ..., json=payload, ...)] with
    [payload["url"] = u]. *)
Definition post (u : url) : M envelope :=
  λ st, Ok (net (clock st) u)
           (State (items st) (S (clock st)) (trace st ++ [Request u])).

(** [for attempt in range(1, max_retries + 1)] with the body shared by
    [fetch_items] and [fetch_owners]; after the loop, [return None]. *)
Fixpoint fetch_attempts (u : url) (attempts : nat) : M (option text) :=
  match attempts with
  | O => ret None
  | S attempts' =>
      env <- post u ;;
      match solution_text env with
      | Some t => ret (Some t)
      | None => sleep RETRY_DELAY ;;; fetch_attempts u attempts'
      end
  end.

Definition fetch_items (page : Z) : M (option text) :=
  let max_retries := 5%nat in
  fetch_attempts (ItemsUrl page) max_retries.

Definition fetch_owners (item_id : item_id) (page : Z) : M (option text) :=
  let max_retries := 7%nat in
  fetch_attempts (OwnersUrl item_id page) max_retries.

(** The body of the loop of [process_owners] after the fetch. *)
Definition owners_step (item_id : item_id) (page : Z) (r : option text)
  : M control :=
  match r with
  | None => ret Break
  | Some t =>
      match loads t with
      | None => sleep RETRY_DELAY ;;; ret (Continue page)
      | Some json_data =>
          match default [] (inventories json_data) with
          | [] => ret Break
          | invs =>
              merge_into item_id invs ;;;
              if decide (default 0 (pages json_data) ≤ page) then ret Break
              else sleep PAGE_DELAY ;;; ret (Continue (page + 1))
          end
      end
  end.

Definition owners_pass (item_id : item_id) (fuel : nat) (page : Z)
  : M control :=
  r <- fetch_owners item_id page ;;
  owners_step item_id page r.

Definition process_owners (fuel : nat) (item_id : item_id) : M unit :=
  while_true fuel (owners_pass item_id) 1.

(** The body of [for entry in data_list]. *)
Definition process_entry (fuel : nat) (e : entry) : M unit :=
  register e ;;; process_owners fuel (id e).

(** The body of the loop of [process_all_items] after the fetch. *)
Definition items_step (fuel : nat) (page : Z) (r : option text)
  : M control :=
  match r with
  | None => ret (Continue (page + 1))
  | Some t =>
      match loads t with
      | None => sleep RETRY_DELAY ;;; ret (Continue page)
      | Some json_data =>
          match data json_data with
          | None => ret (Continue (page + 1))
          | Some data_list =>
              for_each data_list (process_entry fuel) ;;;
              let last_page :=
                default page (meta json_data ≫= lastPage) in
              if decide (last_page ≤ page) then ret Break
              else sleep PAGE_DELAY ;;; ret (Continue (page + 1))
          end
      end
  end.

Definition items_pass (fuel : nat) (page : Z) : M control :=
  r <- fetch_items page ;;
  items_step fuel page r.

Definition process_all_items (fuel : nat) : M unit :=
  while_true fuel items_pass 1.

End walker.

End Bypass.

(** ** The snapshot store: [save_owners] and the [json.load] of [main.py] *)

Module Snapshot.

(** [json.dump] writes every key of a dict as a JSON string: a [str] as
    it is, an [int] in decimal, [None] as [null]. *)
Definition json_key (k : item_id) : string :=
  match k with
  | IdStr s => s
  | IdInt n => pretty n
  | IdNone => "null"
  end.

(** The document in the file: the members of its top-level object, in
    the order they were written. *)
Definition document := list (string * item).

(** [json.dump(items, f, indent=4)].  The members come in the order of
    [map_to_list]; the order in which the dict was filled is not kept by
    a [gmap], and nothing below depends on it.  Names, owners and counts
    are strings and integers, which the JSON text carries unchanged. *)
Definition dump (m : gmap item_id item) : document :=
  prod_map json_key Datatypes.id <$> map_to_list m.

(** [json.load(f)]: the members are inserted one after the other, so the
    last value of a repeated key stays; every key is a [str]. *)
Definition load (doc : document) : gmap item_id item :=
  foldl (λ m kv, <[IdStr kv.1 := kv.2]> m) ∅ doc.

Definition file_system := gmap string document.

(** [with open(filepath, "w") as f: json.dump(items, f, indent=4)] *)
Definition save_owners (m : gmap item_id item) (filepath : string)
    (fs : file_system) : file_system :=
  <[filepath := dump m]> fs.

(** [with open(file_path, "r") as f: data = json.load(f)]; [None] when
    there is no such file. *)
Definition load_file (file_path : string) (fs : file_system)
  : option (gmap item_id item) :=
  load <$> fs !! file_path.

End Snapshot.

(** ** The reporting helpers of [main.py] *)

Module Report.

(** A Python dict from labels to counts, in insertion order. *)
Definition dict := list (string * Z).

Definition keys (d : dict) : list string := d.*1.
Definition values (d : dict) : list Z := d.*2.

(** [sum(...)] *)
Definition sum (l : list Z) : Z := foldr Z.add 0 l.

(** [d[k] = v]: an existing key keeps its place, a new one goes last. *)
Fixpoint dict_set (d : dict) (k : string) (v : Z) : dict :=
  match d with
  | [] => [(k, v)]
  | (k', v') :: rest =>
      if decide (k' = k) then (k, v) :: rest
      else (k', v') :: dict_set rest k v
  end.

(** [dict(pairs)] *)
Definition dict_of (pairs : list (string * Z)) : dict :=
  foldl (λ d kv, dict_set d kv.1 kv.2) [] pairs.

(** [l[:k]], a negative [k] counting from the end. *)
Definition slice_to {A} (l : list A) (k : Z) : list A :=
  if decide (k < 0) then take (Z.to_nat (Z.of_nat (length l) + k)) l
  else take (Z.to_nat k) l.

Definition aggregate_others (user_counts : dict) (top_n : Z) : dict :=
  let total := sum (values user_counts) in
  if decide (Z.of_nat (length user_counts) ≤ top_n) then user_counts
  else
    let top_n_dict := dict_of (slice_to user_counts top_n) in
    let others_count := total - sum (values top_n_dict) in
    dict_set top_n_dict "Others" others_count.

(** [sorted(pairs, key=lambda x: x[1], reverse=True)]: a stable sort,
    larger counts first, equal counts in their original order. *)
Fixpoint insert_desc (x : string * Z) (l : list (string * Z))
  : list (string * Z) :=
  match l with
  | [] => [x]
  | y :: rest =>
      if decide (x.2 < y.2) then y :: insert_desc x rest
      else x :: y :: rest
  end.

Definition sorted_desc (pairs : list (string * Z)) : list (string * Z) :=
  foldr insert_desc [] pairs.

(** [dict(sorted(user_counts.items(), key=lambda x: x[1], reverse=True))] *)
Definition sorted_counts (user_counts : dict) : dict :=
  dict_of (sorted_desc user_counts).

End Report.

(** ** Fake sources used by the examples *)

Module Scenarios.

Definition page_of_entries (es : list entry) (last : option Z) : json_obj :=
  JsonObj (Some es) (Some (Meta last)) None None.

Definition page_of_owners (us : list string) (n : option Z) : json_obj :=
  JsonObj None None (Some (inv_of <$> us)) n.

(** The scenario of the specification: one items page with the item 10
    named Hat, one owners page on which the user x appears twice. *)
Definition hat_body (u : url) : text :=
  match u with
  | ItemsUrl _ =>
      JsonText (page_of_entries [Entry (IdInt 10) (Some "Hat")] (Some 1))
  | OwnersUrl _ _ => JsonText (page_of_owners ["x"; "x"] (Some 1))
  end.

Definition hat_direct : Direct.network := λ _ u, (200, hat_body u).

Definition wrap (t : text) : Bypass.envelope :=
  Some (Bypass.Envelope (Some (Bypass.Solution (Some t)))).

Definition hat_bypass : Bypass.network := λ _ u, wrap (hat_body u).

(** The proxy never produces a usable envelope for owners pages. *)
Definition owners_blocked : Bypass.network :=
  λ n u, match u with
         | ItemsUrl _ => wrap (hat_body u)
         | OwnersUrl _ _ =>
             if Nat.even n then None else Some (Bypass.Envelope None)
         end.

(** Well-formed envelopes throughout, but the first [n] bodies asked of
    one endpoint do not decode. *)
Definition garbled_items (n : nat) : Bypass.network :=
  λ k u, wrap match u with
              | ItemsUrl _ => if (k <? n)%nat then NotJson else hat_body u
              | OwnersUrl _ _ => hat_body u
              end.

Definition garbled_owners (n : nat) : Bypass.network :=
  λ k u, wrap match u with
              | ItemsUrl _ => hat_body u
              | OwnersUrl _ _ => if (k <? S n)%nat then NotJson else hat_body u
              end.

(** Every items page reports [lastPage = 3] and lists one item, numbered
    like the page; every item has two pages of owners. *)
Definition three_pages_body (u : url) : text :=
  match u with
  | ItemsUrl p => JsonText (page_of_entries [Entry (IdInt p) None] (Some 3))
  | OwnersUrl _ p =>
      JsonText (page_of_owners (if decide (p = 1) then ["a"; "b"] else ["a"])
                               (Some 2))
  end.

Definition three_pages_direct : Direct.network :=
  λ _ u, (200, three_pages_body u).

Definition three_pages_bypass : Bypass.network :=
  λ _ u, wrap (three_pages_body u).

(** Every items page reports [lastPage = 3], but the third one has no
    list under [data]. *)
Definition third_without_data : Bypass.network :=
  λ _ u, wrap match u with
              | ItemsUrl p =>
                  JsonText (JsonObj (if decide (p = 3) then None else Some [])
                                    (Some (Meta (Some 3))) None None)
              | OwnersUrl _ _ => JsonText (page_of_owners [] None)
              end.

(** The id 10 is listed twice on the items page; its owners are x, x
    when first asked and y afterwards. *)
Definition listed_twice_body (n : nat) (u : url) : text :=
  match u with
  | ItemsUrl _ =>
      JsonText (page_of_entries [Entry (IdInt 10) (Some "Hat");
                                 Entry (IdInt 10) (Some "Cap")] (Some 1))
  | OwnersUrl _ _ =>
      JsonText (page_of_owners (if (n <? 2)%nat then ["x"; "x"] else ["y"])
                               (Some 1))
  end.

Definition listed_twice_direct : Direct.network :=
  λ n u, (200, listed_twice_body n u).

Definition listed_twice_bypass : Bypass.network :=
  λ n u, wrap (listed_twice_body n u).

(** The aggregate counts of the specification's example. *)
Definition four_users : Report.dict :=
  [("alice", 5); ("bob", 3); ("carol", 9); ("dave", 1)].

(** A user who is called Others and holds the most copies. *)
Definition others_on_top : Report.dict :=
  [("Others", 5); ("a", 3); ("b", 2)].

(** A first page of owners that declares fifty pages, and nothing on the
    pages after it. *)
Definition fifty_pages_body (u : url) : text :=
  match u with
  | ItemsUrl _ => JsonText (page_of_entries [] None)
  | OwnersUrl _ p =>
      JsonText (page_of_owners (if decide (p = 1) then ["a"; "b"] else [])
                               (Some 50))
  end.

Definition fifty_pages_direct : Direct.network := λ _ u, (200, fifty_pages_body u).

Definition fifty_pages_bypass : Bypass.network := λ _ u, wrap (fifty_pages_body u).

Definition hat_snapshot : gmap item_id item :=
  {[ IdInt 10 := Item "Hat" [Owner "x" 2] ]}.

End Scenarios.

(** ** What the collection keeps true *)

Module Tally.

(** The count held for a name: the counts of the entries that carry it. *)
Fixpoint count_of (u : string) (owners : list owner) : Z :=
  match owners with
  | [] => 0
  | o :: rest => (if decide (name o = u) then count o else 0) + count_of u rest
  end.

(** The records of a list that carry a username. *)
Definition occurrences (u : string) (invs : list inventory) : nat :=
  length (filter (λ inv, username_of inv = u) invs).

(** An owner list as the merge leaves it: no name twice, no count below 1. *)
Definition well_formed_owners (l : list owner) : Prop :=
  NoDup (names l) ∧ Forall (λ o, 1 ≤ count o) l.

Definition well_formed (m : gmap item_id item) : Prop :=
  ∀ i it, m !! i = Some it → well_formed_owners (owners it).

(** What a computation guarantees when it starts from a state in [P]: it
    does not raise, and if it returns, its value and final state are in
    [Q]. *)
Definition triple {A} (P : state → Prop) (m : M A) (Q : A → state → Prop)
  : Prop :=
  ∀ st, P st →
        match m st with
        | Ok a st' => Q a st'
        | Raise _ _ => False
        | OutOfFuel => True
        end.

(** The events a run added to the trace. *)
Definition added (tr : list event) (st st' : state) : Prop :=
  trace st' = trace st ++ tr.

(** What the owners loop of an item may do: wait, or ask for a page of
    that item's owners, numbered from 1. *)
Definition owners_event (i : item_id) (e : event) : Prop :=
  match e with
  | Sleep _ => True
  | Request (OwnersUrl j p) => j = i ∧ 1 ≤ p
  | Request (ItemsUrl _) => False
  end.

(** The page number a URL asks for. *)
Definition url_page (u : url) : Z :=
  match u with
  | ItemsUrl p => p
  | OwnersUrl _ p => p
  end.

End Tally.

(** ** [process_data] and the report of [main.py] *)

Module Reading.

(** An owner and a record of the loaded file as [process_data] reads
    them, [None] for an absent key. *)
Record owner_obj := OwnerObj {
  owner_name : option string;
  owner_count : option Z
}.

Record record_obj := RecordObj { record_owners : option (list owner_obj) }.

(** The dict [user_counts]: its keys are names, or [None] for an owner
    without a name, in the order in which they were first met. *)
Definition counts := list (option string * Z).

(** [user_counts.get(name, 0)] *)
Fixpoint get (d : counts) (k : option string) : Z :=
  match d with
  | [] => 0
  | (k', v) :: rest => if decide (k' = k) then v else get rest k
  end.

(** [user_counts[name] = v] *)
Fixpoint set (d : counts) (k : option string) (v : Z) : counts :=
  match d with
  | [] => [(k, v)]
  | (k', v') :: rest =>
      if decide (k' = k) then (k, v) :: rest else (k', v') :: set rest k v
  end.

(** The body of [for owner in record.get("owners", [])], on the pair
    [(user_counts, total_lims)]. *)
Definition count_owner (acc : counts * Z) (o : owner_obj) : counts * Z :=
  let name := owner_name o in
  let count := default 0 (owner_count o) in
  (set acc.1 name (get acc.1 name + count), acc.2 + count).

(** The body of [for record in data.values()]. *)
Definition count_record (acc : counts * Z) (r : record_obj) : counts * Z :=
  foldl count_owner acc (default [] (record_owners r)).

(** The two loops of [process_data] over the values of the loaded dict. *)
Definition process_records (records : list record_obj) : counts * Z :=
  foldl count_record ([], 0) records.

(** The dict that [json.load] builds from the members of an object: a
    key met again keeps its place and takes the new value. *)
Fixpoint member_set {V} (d : list (string * V)) (k : string) (v : V)
  : list (string * V) :=
  match d with
  | [] => [(k, v)]
  | (k', v') :: rest =>
      if decide (k' = k) then (k, v) :: rest else (k', v') :: member_set rest k v
  end.

Definition json_load {V} (doc : list (string * V)) : list (string * V) :=
  foldl (λ d kv, member_set d kv.1 kv.2) [] doc.

(** An item of the snapshot file as [process_data] reads it back: every
    key is there. *)
Definition as_read (it : item) : record_obj :=
  RecordObj (Some ((λ o, OwnerObj (Some (name o)) (Some (count o))) <$> owners it)).

(** [process_data(file_path)]; [None] when there is no such file. *)
Definition process_data (file_path : string) (fs : Snapshot.file_system)
  : option (counts * Z) :=
  doc ← fs !! file_path;
  Some (process_records (as_read <$> (json_load doc).*2)).

(** The README sentence that [main] rewrites. *)
Definition FUN_FACT_PREFIX : string := "**Fun fact:** There are over ".

Definition newline : string := String (Ascii.ascii_of_nat 10) EmptyString.

(** [f"**Fun fact:** There are over **{total_lims}** limited copies!\n"] *)
Definition fun_fact (total_lims : Z) : string :=
  "**Fun fact:** There are over **" +:+ pretty total_lims +:+
  "** limited copies!" +:+ newline.

(** The loop of [main] over the lines of README.md. *)
Definition update_readme (lines : list string) (total_lims : Z) : list string :=
  (λ line, if String.prefix FUN_FACT_PREFIX line then fun_fact total_lims
           else line) <$> lines.

(** [top_10] and [with_others] as [main] computes them for the charts. *)
Definition top_10 (user_counts : Report.dict) : Report.dict :=
  Report.dict_of (Report.slice_to (Report.sorted_counts user_counts) 10).

Definition with_others (user_counts : Report.dict) : Report.dict :=
  Report.aggregate_others (Report.sorted_counts user_counts) 10.

(** The owners [process_data] goes through, record after record, and the
    count each one stands for. *)
Definition read_owners (records : list record_obj) : list owner_obj :=
  concat ((λ r, default [] (record_owners r)) <$> records).

Definition read_count (o : owner_obj) : Z := default 0 (owner_count o).

Definition sum_counts (l : list owner_obj) : Z :=
  Report.sum (read_count <$> l).

(** The counts held in a snapshot, item after item. *)
Definition snapshot_total (m : gmap item_id item) : Z :=
  Report.sum ((λ kv, total (owners kv.2)) <$> map_to_list m).

End Reading.

(** ** Sources used by the examples of the further properties *)

Module Cases.

(** Three answers of 429, then the pages of the Hat scenario. *)
Definition limited_thrice : Direct.network :=
  λ n u, if (n <? 3)%nat then (429, NotJson) else (200, Scenarios.hat_body u).

(** Nothing but 429. *)
Definition always_limited : Direct.network := λ _ _, (429, NotJson).


(** A proxy that fails twice before each envelope that gets through. *)
Definition proxy_shaky : Bypass.network :=
  λ n u, if (n `mod` 3 <? 2)%nat then None else Scenarios.wrap (Scenarios.hat_body u).

(** Three pages of owners for every item. *)
Definition three_owner_pages : list (list inventory) :=
  [[inv_of "a"; inv_of "b"]; [inv_of "a"]; [inv_of "c"; inv_of "a"]].

Definition owners_body (pages_list : list (list inventory)) (u : url) : text :=
  match u with
  | ItemsUrl _ => JsonText (Scenarios.page_of_entries [] None)
  | OwnersUrl _ p =>
      JsonText (JsonObj None None (pages_list !! Z.to_nat (p - 1))
                        (Some (Z.of_nat (length pages_list))))
  end.

Definition paged_direct (pages_list : list (list inventory)) : Direct.network :=
  λ _ u, (200, owners_body pages_list u).

Definition paged_bypass (pages_list : list (list inventory)) : Bypass.network :=
  λ _ u, Scenarios.wrap (owners_body pages_list u).

End Cases.

(** * Properties *)

Section merge_facts.

Lemma names_merge_present owners u :
  u ∈ names owners → names (merge_owner owners u) = names owners.
Proof.
  induction owners as [|o rest IH]; simpl.
  - intros H. by apply elem_of_nil in H.
  - intros H. case_decide as E; simpl; [done|].
    f_equal. apply IH. apply elem_of_cons in H as [H|H]; [congruence|done].
Qed.

Lemma names_merge_absent owners u :
  u ∉ names owners → names (merge_owner owners u) = names owners ++ [u].
Proof.
  induction owners as [|o rest IH]; simpl; [done|].
  intros H. apply not_elem_of_cons in H as [H1 H2].
  case_decide as E; [congruence|]. simpl. f_equal. by apply IH.
Qed.

Lemma total_merge owners u : total (merge_owner owners u) = total owners + 1.
Proof.
  induction owners as [|o rest IH]; simpl; [done|].
  case_decide; simpl; lia.
Qed.

Lemma NoDup_names_merge owners u :
  NoDup (names owners) → NoDup (names (merge_owner owners u)).
Proof.
  intros H. destruct (decide (u ∈ names owners)) as [Hin|Hout].
  - by rewrite names_merge_present.
  - rewrite names_merge_absent by done.
    apply NoDup_app. split_and!; [done| |apply NoDup_singleton].
    intros x Hx Hx'. apply list_elem_of_singleton in Hx'. by subst.
Qed.

Lemma filter_ne_snoc_in (l : list string) x u :
  filter (λ y, y ≠ x) (l ++ [u]) =
  filter (λ y, y ≠ x) l ++ (if decide (u = x) then [] else [u]).
Proof.
  rewrite filter_app. f_equal. rewrite filter_cons, filter_nil.
  repeat case_decide; congruence.
Qed.

Lemma filter_ne_elem (l : list string) x u :
  u ∈ filter (λ y, y ≠ x) l ↔ u ∈ l ∧ u ≠ x.
Proof. rewrite list_elem_of_filter. tauto. Qed.

(** Appending a name to a sequence: the first occurrences gain it exactly
    when it is new. *)
Lemma first_seen_snoc l u :
  first_seen (l ++ [u]) =
  if decide (u ∈ first_seen l) then first_seen l else first_seen l ++ [u].
Proof.
  induction l as [|x l IH]; cbn [first_seen app].
  - rewrite decide_False; [done|]. intros H. by apply elem_of_nil in H.
  - rewrite IH. clear IH.
    destruct (decide (u ∈ first_seen l)) as [H1|H1];
      destruct (decide (u = x)) as [->|Hne]; case_decide as H2.
    + done.
    + exfalso. apply H2, list_elem_of_here.
    + done.
    + exfalso. apply H2, elem_of_cons. right. by apply filter_ne_elem.
    + rewrite filter_ne_snoc_in, decide_True by done. by rewrite app_nil_r.
    + exfalso. apply H2, list_elem_of_here.
    + exfalso. apply elem_of_cons in H2 as [H2|H2]; [done|].
      apply filter_ne_elem in H2. tauto.
    + rewrite filter_ne_snoc_in, decide_False by done. done.
Qed.

(** [first_seen] keeps every name of the sequence, once. *)
Lemma first_seen_elem l x : x ∈ first_seen l ↔ x ∈ l.
Proof.
  induction l as [|y l IH]; simpl; [done|].
  rewrite !elem_of_cons, filter_ne_elem, IH.
  destruct (decide (x = y)); tauto.
Qed.

Lemma first_seen_NoDup l : NoDup (first_seen l).
Proof.
  induction l as [|y l IH]; simpl; [apply NoDup_nil_2|].
  apply NoDup_cons. split.
  - rewrite filter_ne_elem. tauto.
  - by apply NoDup_filter.
Qed.

Lemma merge_usernames_spec (l : list string) :
  let res := foldl merge_owner [] l in
  NoDup (names res) ∧ total res = Z.of_nat (length l) ∧
  names res = first_seen l.
Proof.
  induction l as [|u l IH] using rev_ind; simpl.
  - split_and!; [apply NoDup_nil_2|done|done].
  - rewrite foldl_app. simpl. destruct IH as (Hnd & Htot & Hnames).
    split_and!.
    + by apply NoDup_names_merge.
    + rewrite total_merge, Htot, length_app. simpl. lia.
    + rewrite first_seen_snoc, <- Hnames. case_decide.
      * by apply names_merge_present.
      * by apply names_merge_absent.
Qed.

Lemma merge_inventories_usernames owners invs :
  merge_inventories owners invs = foldl merge_owner owners (username_of <$> invs).
Proof.
  unfold merge_inventories. revert owners.
  induction invs as [|i invs IH]; intros owners; simpl; [done|]. apply IH.
Qed.

End merge_facts.

(** C1: usernames merged one at a time into an empty owner list give a
    list with pairwise distinct names, whose counts sum to the number of
    records merged and whose entries stand in the order in which each
    name first occurred.  A record that carries a username is merged
    under that very username; the same holds of any list of inventory
    records, read through the defaults of [.get]. *)
Theorem merge_from_empty_invariant
    (usernames : list string) (invs : list inventory) :
  (let owners := merge_inventories [] (inv_of <$> usernames) in
   NoDup (names owners) ∧
   total owners = Z.of_nat (length usernames) ∧
   names owners = first_seen usernames)
  ∧ (let owners := merge_inventories [] invs in
     NoDup (names owners) ∧
     total owners = Z.of_nat (length invs) ∧
     names owners = first_seen (username_of <$> invs))
  ∧ (∀ s, username_of (inv_of s) = s).
Proof.
  assert (∀ l : list inventory,
            let owners := merge_inventories [] l in
            NoDup (names owners) ∧
            total owners = Z.of_nat (length l) ∧
            names owners = first_seen (username_of <$> l)) as Hgen.
  { intros l. simpl. rewrite merge_inventories_usernames.
    destruct (merge_usernames_spec (username_of <$> l)) as (H1 & H2 & H3).
    by rewrite length_fmap in H2. }
  split_and!; [|apply Hgen|done].
  destruct (Hgen (inv_of <$> usernames)) as (H1 & H2 & H3).
  rewrite length_fmap in H2. rewrite <- list_fmap_compose in H3.
  assert (∀ l : list string, username_of ∘ inv_of <$> l = l) as Hid.
  { intros l. induction l as [|s l IH]; [done|].
    rewrite fmap_cons, IH. done. }
  by rewrite Hid in H3.
Qed.

Example merge_from_empty_abab :
  merge_inventories [] (inv_of <$> ["a"; "b"; "a"; ""; "b"; "a"]) =
  [Owner "a" 3; Owner "b" 2; Owner "" 1].
Proof. reflexivity. Qed.

Section merge_step.

Lemma merge_owner_cases owners u :
  (∃ pre o post,
      owners = pre ++ (o :: post) ∧ (u ∉ names pre) ∧ name o = u ∧
      merge_owner owners u = pre ++ (Owner u (count o + 1) :: post))
  ∨ ((u ∉ names owners) ∧ merge_owner owners u = owners ++ [Owner u 1]).
Proof.
  induction owners as [|o rest IH]; simpl.
  - right. split; [apply not_elem_of_nil|done].
  - case_decide as E.
    + left. exists [], o, rest. subst u. split_and!; try done.
      apply not_elem_of_nil.
    + destruct IH as [(pre & o' & post & -> & Hpre & Ho' & Hm)|[Hno Hm]].
      * left. exists (o :: pre), o', post. rewrite Hm.
        split_and!; try done. simpl. by apply not_elem_of_cons.
      * right. rewrite Hm. split; [|done]. simpl. by apply not_elem_of_cons.
Qed.

End merge_step.

(** C2: merging one inventory record increments the first entry whose
    name is the record's username and leaves the rest as it was, or, when
    no entry has that name, appends the username with count 1.  The
    username of a record is the one it carries, compared as a string; an
    absent [user], an absent [username] and an empty username are all the
    name [""] and are counted like any other. *)
Theorem merge_step_spec (owners : list owner) (inv : inventory) :
  let u := username_of inv in
  let owners' := merge_inventories owners [inv] in
  ((∃ pre o post,
       owners = pre ++ (o :: post) ∧ (u ∉ names pre) ∧ name o = u ∧
       owners' = pre ++ (Owner u (count o + 1) :: post))
   ∨ ((u ∉ names owners) ∧ owners' = owners ++ [Owner u 1]))
  ∧ total owners' = total owners + 1
  ∧ username_of (Inventory None) = ""
  ∧ username_of (Inventory (Some (UserObj None))) = ""
  ∧ username_of (Inventory (Some (UserObj (Some "")))) = ""
  ∧ (∀ s, username_of (Inventory (Some (UserObj (Some s)))) = s)
  ∧ (∀ s, merge_inventories owners [Inventory (Some (UserObj (Some s)))] =
          merge_owner owners s).
Proof.
  simpl. split_and!; try done.
  - apply merge_owner_cases.
  - apply total_merge.
Qed.


(** The scenario of the specification, in both modes. *)
Example hat_scenario_direct :
  ∃ st, Direct.process_all_items Scenarios.hat_direct 3 init = Ok tt st ∧
        items st = Scenarios.hat_snapshot ∧
        trace st = [Request (ItemsUrl 1); Request (OwnersUrl (IdInt 10) 1)].
Proof. eexists. split_and!; [vm_compute; reflexivity|vm_compute; reflexivity|reflexivity]. Qed.

Example hat_scenario_bypass :
  ∃ st, Bypass.process_all_items Scenarios.hat_bypass 3 init = Ok tt st ∧
        items st = Scenarios.hat_snapshot ∧
        trace st = [Request (ItemsUrl 1); Request (OwnersUrl (IdInt 10) 1)].
Proof. eexists. split_and!; [vm_compute; reflexivity|vm_compute; reflexivity|reflexivity]. Qed.

Example hat_scenario_file :
  Snapshot.dump Scenarios.hat_snapshot = [("10", Item "Hat" [Owner "x" 2])].
Proof. vm_compute. reflexivity. Qed.

(** ** Loops and passes *)

Section loops.

Lemma while_true_unfold fuel body page st :
  while_true (S fuel) body page st =
  match body fuel page st with
  | Ok Break st' => Ok tt st'
  | Ok (Continue page') st' => while_true fuel body page' st'
  | Raise e st' => Raise e st'
  | OutOfFuel => OutOfFuel
  end.
Proof.
  simpl. unfold bind. destruct (body fuel page st) as [[|?] ?| |]; done.
Qed.

(** A loop that returns has made a last pass, and that pass ended in
    [Break]. *)
Lemma while_true_returns fuel body page st st' :
  while_true fuel body page st = Ok tt st' →
  ∃ fuel' page' st0, body fuel' page' st0 = Ok Break st'.
Proof.
  revert page st. induction fuel as [|fuel IH]; intros page st; [done|].
  rewrite while_true_unfold.
  destruct (body fuel page st) as [[|p] s| |] eqn:E; try done.
  - intros [= <-]. eauto.
  - apply IH.
Qed.

End loops.

Section direct_owners.

Variable net : Direct.network.

Lemma direct_handle_rate_limit_pass fuel r st :
  Direct.status_code r ≠ 429 →
  Direct.handle_rate_limit net fuel r st = Ok r st.
Proof. intros H. destruct fuel; simpl; by rewrite decide_False. Qed.

Lemma direct_owners_step_empty i page r o st :
  loads (Direct.body r) = Some o →
  default [] (inventories o) = [] →
  Direct.owners_step i page r st = Ok Break st.
Proof. intros H1 H2. unfold Direct.owners_step. by rewrite H1, H2. Qed.

Lemma direct_owners_step_break i page r st c st' :
  Direct.owners_step i page r st = Ok c st' →
  c = Break ↔
  ∃ o, loads (Direct.body r) = Some o ∧
       (default [] (inventories o) = [] ∨ default 0 (pages o) ≤ page).
Proof.
  unfold Direct.owners_step.
  destruct (loads (Direct.body r)) as [o|] eqn:E.
  - destruct (default [] (inventories o)) as [|inv invs] eqn:Einv.
    + intros [= <- <-]. split; [|done]. intros _. exists o. auto.
    + unfold bind, merge_into. destruct (items st !! i); [|done].
      case_decide as Hp.
      * intros [= <- <-]. split; [|done]. intros _. exists o. auto.
      * intros [= <- <-]. split; [done|].
        intros (o' & [= <-] & [H|H]); [by rewrite Einv in H|lia].
  - intros [= <- <-]. split; [done|]. by intros (o & ? & _).
Qed.

Lemma direct_owners_step_merge i page r o inv invs it st :
  loads (Direct.body r) = Some o →
  default [] (inventories o) = inv :: invs →
  items st !! i = Some it →
  Direct.owners_step i page r st =
  let st1 := State (<[i := Item (item_name it)
                            (merge_inventories (owners it) (inv :: invs))]>
                      (items st))
                   (clock st) (trace st) in
  if decide (default 0 (pages o) ≤ page) then Ok Break st1
  else Ok (Continue (page + 1)) (log (Sleep Direct.PAGE_DELAY) st1).
Proof.
  intros H1 H2 H3. unfold Direct.owners_step. rewrite H1, H2.
  unfold bind, merge_into. rewrite H3. simpl. by case_decide.
Qed.

(** A parse failure: the same page is asked again after the delay. *)
Lemma direct_owners_step_retry i page r st :
  loads (Direct.body r) = None →
  Direct.owners_step i page r st =
  Ok (Continue page) (log (Sleep Direct.RATE_LIMIT_DELAY) st).
Proof. intros H. unfold Direct.owners_step. by rewrite H. Qed.

End direct_owners.

Section direct_owners_scenario.

Variable net : Direct.network.

(** Two passes: a first page with records that declares [P] pages, a
    second page without records. *)
Lemma direct_owners_stop_on_empty i it o1 o2 c1 c2 inv invs P st fuel :
  net (clock st) (OwnersUrl i 1) = (c1, JsonText o1) → c1 ≠ 429 →
  inventories o1 = Some (inv :: invs) → pages o1 = Some P → 1 < P →
  net (S (clock st)) (OwnersUrl i 2) = (c2, JsonText o2) → c2 ≠ 429 →
  default [] (inventories o2) = [] →
  items st !! i = Some it →
  Direct.process_owners net (S (S fuel)) i st =
  Ok tt (State (<[i := Item (item_name it)
                         (merge_inventories (owners it) (inv :: invs))]>
                   (items st))
               (S (S (clock st)))
               (trace st ++ [Request (OwnersUrl i 1); Sleep 600;
                             Request (OwnersUrl i 2)])).
Proof.
  intros H1 Hc1 Hinv HP HltP H2 Hc2 Hempty Hit.
  unfold Direct.process_owners. rewrite while_true_unfold.
  unfold Direct.owners_pass, Direct.fetch_owners, Direct.get, bind at 1 2.
  rewrite H1. cbn [fst snd].
  rewrite direct_handle_rate_limit_pass by done.
  erewrite direct_owners_step_merge; [|done|by rewrite Hinv|done].
  cbn zeta. rewrite HP. rewrite decide_False by (simpl; lia).
  rewrite while_true_unfold.
  unfold Direct.owners_pass, Direct.fetch_owners, Direct.get, bind at 1 2.
  cbn [clock log items trace]. change (1 + 1) with 2. rewrite H2. cbn [fst snd].
  rewrite direct_handle_rate_limit_pass by done.
  erewrite direct_owners_step_empty; [|done|done].
  cbn [log items clock trace]. rewrite <- !app_assoc. done.
Qed.

End direct_owners_scenario.

Section bypass_fetch.

Variable net : Bypass.network.

Lemma requests_app tr1 tr2 :
  requests (tr1 ++ tr2) = requests tr1 ++ requests tr2.
Proof. apply omap_app. Qed.

Lemma bypass_fetch_first u n t st :
  Bypass.solution_text (net (clock st) u) = Some t →
  Bypass.fetch_attempts net u (S n) st =
  Ok (Some t) (State (items st) (S (clock st)) (trace st ++ [Request u])).
Proof.
  intros H. cbn [Bypass.fetch_attempts]. unfold bind, Bypass.post.
  by rewrite H.
Qed.


(** A fetch always returns; it makes at most [n] requests, all of them
    for the same URL, exactly [n] when it gives up, and it leaves the
    snapshot alone. *)
Lemma bypass_fetch_bounded u n st :
  ∃ r st' k,
    Bypass.fetch_attempts net u n st = Ok r st' ∧
    items st' = items st ∧
    (k ≤ n)%nat ∧ clock st' = (clock st + k)%nat ∧
    requests (trace st') = requests (trace st) ++ replicate k u ∧
    (r = None → k = n).
Proof.
  revert st. induction n as [|n IH]; intros st.
  - exists None, st, 0%nat. simpl. rewrite app_nil_r.
    repeat split; lia.
  - cbn [Bypass.fetch_attempts]. unfold bind at 1, Bypass.post.
    destruct (Bypass.solution_text (net (clock st) u)) as [t|] eqn:E.
    + eexists _, _, 1%nat. split; [reflexivity|]. cbn [items clock trace].
      rewrite requests_app. repeat split; [lia|lia|done].
    + unfold bind, sleep.
      destruct (IH (log (Sleep Bypass.RETRY_DELAY)
                     (State (items st) (S (clock st))
                            (trace st ++ [Request u]))))
        as (r & st' & k & Hrun & Hi & Hk & Hc & Htr & Hr).
      exists r, st', (S k). rewrite Hrun. split; [done|].
      cbn [log items clock trace] in *. repeat split.
      * done.
      * lia.
      * lia.
      * rewrite Htr, !requests_app. cbn [requests omap list_omap replicate app].
        rewrite <- !app_assoc. done.
      * intros Hn. specialize (Hr Hn). lia.
Qed.

End bypass_fetch.
Section bypass_owners.

Variable net : Bypass.network.

Lemma bypass_owners_step_empty i page t o st :
  loads t = Some o →
  default [] (inventories o) = [] →
  Bypass.owners_step i page (Some t) st = Ok Break st.
Proof. intros H1 H2. unfold Bypass.owners_step. by rewrite H1, H2. Qed.

Lemma bypass_owners_step_break i page r st c st' :
  Bypass.owners_step i page r st = Ok c st' →
  c = Break ↔
  r = None ∨
  ∃ t o, r = Some t ∧ loads t = Some o ∧
         (default [] (inventories o) = [] ∨ default 0 (pages o) ≤ page).
Proof.
  unfold Bypass.owners_step. destruct r as [t|].
  - destruct (loads t) as [o|] eqn:E.
    + destruct (default [] (inventories o)) as [|inv invs] eqn:Einv.
      * intros [= <- <-]. split; [|done]. intros _. right. exists t, o. auto.
      * unfold bind, merge_into. destruct (items st !! i); [|done].
        case_decide as Hp.
        -- intros [= <- <-]. split; [|done]. intros _. right.
           exists t, o. auto.
        -- intros [= <- <-]. split; [done|].
           intros [|(t' & o' & [= <-] & Ho & [H|H])]; [done| |].
           ++ rewrite E in Ho. injection Ho as <-. by rewrite Einv in H.
           ++ rewrite E in Ho. injection Ho as <-. lia.
    + intros [= <- <-]. split; [done|].
      intros [|(t' & o' & [= <-] & Ho & _)]; [done|]. by rewrite E in Ho.
  - intros [= <- <-]. split; [|done]. auto.
Qed.

Lemma bypass_owners_step_merge i page t o inv invs it st :
  loads t = Some o →
  default [] (inventories o) = inv :: invs →
  items st !! i = Some it →
  Bypass.owners_step i page (Some t) st =
  let st1 := State (<[i := Item (item_name it)
                            (merge_inventories (owners it) (inv :: invs))]>
                      (items st))
                   (clock st) (trace st) in
  if decide (default 0 (pages o) ≤ page) then Ok Break st1
  else Ok (Continue (page + 1)) (log (Sleep Bypass.PAGE_DELAY) st1).
Proof.
  intros H1 H2 H3. unfold Bypass.owners_step. rewrite H1, H2.
  unfold bind, merge_into. rewrite H3. simpl. by case_decide.
Qed.

Lemma bypass_owners_step_retry i page t st :
  loads t = None →
  Bypass.owners_step i page (Some t) st =
  Ok (Continue page) (log (Sleep Bypass.RETRY_DELAY) st).
Proof. intros H. unfold Bypass.owners_step. by rewrite H. Qed.

Lemma bypass_owners_pass_first i fuel page t st :
  Bypass.solution_text (net (clock st) (OwnersUrl i page)) = Some t →
  Bypass.owners_pass net i fuel page st =
  Bypass.owners_step i page (Some t)
    (State (items st) (S (clock st)) (trace st ++ [Request (OwnersUrl i page)])).
Proof.
  intros H. unfold Bypass.owners_pass, Bypass.fetch_owners, bind.
  by rewrite (bypass_fetch_first _ _ _ t).
Qed.

Lemma bypass_owners_stop_on_empty i it o1 o2 inv invs P st fuel :
  Bypass.solution_text (net (clock st) (OwnersUrl i 1)) = Some (JsonText o1) →
  inventories o1 = Some (inv :: invs) → pages o1 = Some P → 1 < P →
  Bypass.solution_text (net (S (clock st)) (OwnersUrl i 2)) = Some (JsonText o2) →
  default [] (inventories o2) = [] →
  items st !! i = Some it →
  Bypass.process_owners net (S (S fuel)) i st =
  Ok tt (State (<[i := Item (item_name it)
                         (merge_inventories (owners it) (inv :: invs))]>
                   (items st))
               (S (S (clock st)))
               (trace st ++ [Request (OwnersUrl i 1); Sleep 600;
                             Request (OwnersUrl i 2)])).
Proof.
  intros H1 Hinv HP HltP H2 Hempty Hit.
  unfold Bypass.process_owners. rewrite while_true_unfold.
  rewrite (bypass_owners_pass_first _ _ _ _ _ H1).
  erewrite bypass_owners_step_merge; [|done|by rewrite Hinv|done].
  cbn zeta. rewrite HP. rewrite decide_False by (simpl; lia).
  rewrite while_true_unfold. change (1 + 1) with 2.
  rewrite (bypass_owners_pass_first _ _ _ (JsonText o2))
    by (cbn [log clock]; exact H2).
  erewrite bypass_owners_step_empty; [|done|done].
  cbn [log items clock trace]. rewrite <- !app_assoc. done.
Qed.

End bypass_owners.

Section owners_pass_step.

(** Whatever a pass returns, it returns from its step. *)
Lemma direct_owners_pass_step net i fuel page st c st' :
  Direct.owners_pass net i fuel page st = Ok c st' →
  ∃ r st0, Direct.owners_step i page r st0 = Ok c st'.
Proof.
  unfold Direct.owners_pass, bind.
  destruct (Direct.fetch_owners net i page st) as [r0 s0| |]; try done.
  destruct (Direct.handle_rate_limit net fuel r0 s0) as [r s| |]; try done.
  eauto.
Qed.

Lemma bypass_owners_pass_step net i fuel page st c st' :
  Bypass.owners_pass net i fuel page st = Ok c st' →
  ∃ r st0, Bypass.owners_step i page r st0 = Ok c st'.
Proof.
  unfold Bypass.owners_pass, bind.
  destruct (Bypass.fetch_owners net i page st) as [r s| |]; try done.
  eauto.
Qed.

End owners_pass_step.

(** C3: in both modes the owners loop returns as soon as a decoded page
    has no inventory records, on any page and whatever [pages] says.  A
    pass ends the loop only when the fetch was skipped (bypass mode), the
    page had no records, or [page >= pages], an absent [pages] being 0 and
    so ending it; a loop that returns has made such a pass.  With a first
    page that declares [P > 1] pages and an empty second page, exactly the
    pages 1 and 2 are asked. *)
Theorem owners_loop_termination :
  (∀ i page u code o st,
      default [] (inventories o) = [] →
      Direct.owners_step i page (Direct.Response u code (JsonText o)) st
        = Ok Break st ∧
      Bypass.owners_step i page (Some (JsonText o)) st = Ok Break st)
  ∧ (∀ i page r st c st',
      Direct.owners_step i page r st = Ok c st' →
      c = Break ↔
      ∃ o, loads (Direct.body r) = Some o ∧
           (default [] (inventories o) = [] ∨ default 0 (pages o) ≤ page))
  ∧ (∀ i page r st c st',
      Bypass.owners_step i page r st = Ok c st' →
      c = Break ↔
      r = None ∨
      ∃ t o, r = Some t ∧ loads t = Some o ∧
             (default [] (inventories o) = [] ∨ default 0 (pages o) ≤ page))
  ∧ (∀ i page u code o it st,
      1 ≤ page → pages o = None → items st !! i = Some it →
      (∃ st', Direct.owners_step i page (Direct.Response u code (JsonText o)) st
                = Ok Break st') ∧
      (∃ st', Bypass.owners_step i page (Some (JsonText o)) st = Ok Break st'))
  ∧ (∀ dnet bnet fuel i st st',
      (Direct.process_owners dnet fuel i st = Ok tt st' →
       ∃ page r st0, Direct.owners_step i page r st0 = Ok Break st') ∧
      (Bypass.process_owners bnet fuel i st = Ok tt st' →
       ∃ page r st0, Bypass.owners_step i page r st0 = Ok Break st'))
  ∧ (∀ dnet bnet i it o1 o2 c1 c2 inv invs P st st' fuel,
      inventories o1 = Some (inv :: invs) → pages o1 = Some P → 1 < P →
      default [] (inventories o2) = [] →
      items st !! i = Some it →
      st' = State (<[i := Item (item_name it)
                             (merge_inventories (owners it) (inv :: invs))]>
                       (items st))
                  (S (S (clock st)))
                  (trace st ++ [Request (OwnersUrl i 1); Sleep 600;
                                Request (OwnersUrl i 2)]) →
      (dnet (clock st) (OwnersUrl i 1) = (c1, JsonText o1) → c1 ≠ 429 →
       dnet (S (clock st)) (OwnersUrl i 2) = (c2, JsonText o2) → c2 ≠ 429 →
       Direct.process_owners dnet (S (S fuel)) i st = Ok tt st') ∧
      (Bypass.solution_text (bnet (clock st) (OwnersUrl i 1))
         = Some (JsonText o1) →
       Bypass.solution_text (bnet (S (clock st)) (OwnersUrl i 2))
         = Some (JsonText o2) →
       Bypass.process_owners bnet (S (S fuel)) i st = Ok tt st')).
Proof.
  split_and!.
  - intros i page u code o st H. split.
    + by eapply direct_owners_step_empty.
    + by eapply bypass_owners_step_empty.
  - apply direct_owners_step_break.
  - apply bypass_owners_step_break.
  - intros i page u code o it st Hpage Hp Hit.
    destruct (default [] (inventories o)) as [|inv invs] eqn:E.
    + split; eexists.
      * by eapply direct_owners_step_empty.
      * by eapply bypass_owners_step_empty.
    + split; eexists.
      * erewrite direct_owners_step_merge; [|done..].
        cbn zeta. rewrite Hp. by rewrite decide_True by (simpl; lia).
      * erewrite bypass_owners_step_merge; [|done..].
        cbn zeta. rewrite Hp. by rewrite decide_True by (simpl; lia).
  - intros dnet bnet fuel i st st'. split; intros H.
    + apply while_true_returns in H as (f & page & st0 & H).
      apply direct_owners_pass_step in H as (r & s & H). eauto.
    + apply while_true_returns in H as (f & page & st0 & H).
      apply bypass_owners_pass_step in H as (r & s & H). eauto.
  - intros dnet bnet i it o1 o2 c1 c2 inv invs P st st' fuel
      Hinv HP HltP Hempty Hit ->. split.
    + intros H1 Hc1 H2 Hc2. by eapply direct_owners_stop_on_empty.
    + intros H1 H2. by eapply bypass_owners_stop_on_empty.
Qed.

(** The last part of the theorem on a source that declares fifty pages of
    owners and has one. *)
Lemma owners_loop_termination_witness :
  let st := State {[ IdInt 7 := Item "Cap" [] ]} 0 [] in
  let st' := State {[ IdInt 7 := Item "Cap" [Owner "a" 1; Owner "b" 1] ]} 2
               [Request (OwnersUrl (IdInt 7) 1); Sleep 600;
                Request (OwnersUrl (IdInt 7) 2)] in
  Direct.process_owners Scenarios.fifty_pages_direct 2 (IdInt 7) st = Ok tt st'
  ∧ Bypass.process_owners Scenarios.fifty_pages_bypass 2 (IdInt 7) st = Ok tt st'.
Proof.
  intros st st'.
  destruct owners_loop_termination as (_ & _ & _ & _ & _ & H).
  destruct (H Scenarios.fifty_pages_direct Scenarios.fifty_pages_bypass
              (IdInt 7) (Item "Cap" [])
              (Scenarios.page_of_owners ["a"; "b"] (Some 50))
              (Scenarios.page_of_owners [] (Some 50))
              200 200 (inv_of "a") [inv_of "b"] 50 st st' 0%nat)
    as [Hd Hb]; try (vm_compute; reflexivity).
  split; [apply Hd|apply Hb]; try reflexivity; discriminate.
Defined.


(** Owners pages that never get through the proxy: the item stays in the
    snapshot without owners after seven requests, and the run ends well. *)
Example owners_blocked_run :
  ∃ st, Bypass.process_all_items Scenarios.owners_blocked 2 init = Ok tt st ∧
        items st = {[ IdInt 10 := Item "Hat" [] ]} ∧
        requests (trace st) =
        ItemsUrl 1 :: replicate 7 (OwnersUrl (IdInt 10) 1).
Proof.
  eexists. split_and!; [vm_compute; reflexivity|vm_compute; reflexivity|reflexivity].
Qed.

(** ** Bodies that do not decode *)

Section parse_failures.

Lemma retried_0 u d st : retried u d 0 st = st.
Proof.
  destruct st as [m c tr]. unfold retried. simpl.
  by rewrite Nat.add_0_r, app_nil_r.
Qed.

Lemma retried_S u d n st :
  retried u d (S n) st =
  retried u d n (log (Sleep d)
                   (State (items st) (S (clock st)) (trace st ++ [Request u]))).
Proof.
  unfold retried, log. cbn [items clock trace replicate mjoin].
  f_equal; [lia|]. by rewrite <- !app_assoc.
Qed.

Lemma retried_shift u d k st :
  retried u d k (retried u d 1 st) = retried u d (S k) st.
Proof. by rewrite (retried_S _ _ k), (retried_S _ _ 0), retried_0. Qed.

Lemma direct_owners_pass_retry net i fuel page st :
  (net (clock st) (OwnersUrl i page)).1 ≠ 429 →
  loads (net (clock st) (OwnersUrl i page)).2 = None →
  Direct.owners_pass net i fuel page st =
  Ok (Continue page) (retried (OwnersUrl i page) Direct.RATE_LIMIT_DELAY 1 st).
Proof.
  intros Hc Hb. unfold Direct.owners_pass, Direct.fetch_owners, Direct.get.
  unfold bind at 1 2. rewrite direct_handle_rate_limit_pass by done.
  rewrite direct_owners_step_retry by done.
  by rewrite retried_S, retried_0.
Qed.

Lemma direct_items_pass_retry net fuel page st :
  (net (clock st) (ItemsUrl page)).1 ≠ 429 →
  loads (net (clock st) (ItemsUrl page)).2 = None →
  Direct.items_pass net fuel page st =
  Ok (Continue page) (retried (ItemsUrl page) Direct.RATE_LIMIT_DELAY 1 st).
Proof.
  intros Hc Hb. unfold Direct.items_pass, Direct.fetch_items, Direct.get.
  unfold bind at 1 2. rewrite direct_handle_rate_limit_pass by done.
  unfold Direct.items_step. cbn [Direct.body]. rewrite Hb.
  by rewrite retried_S, retried_0.
Qed.

Lemma bypass_owners_pass_retry net i fuel page t st :
  Bypass.solution_text (net (clock st) (OwnersUrl i page)) = Some t →
  loads t = None →
  Bypass.owners_pass net i fuel page st =
  Ok (Continue page) (retried (OwnersUrl i page) Bypass.RETRY_DELAY 1 st).
Proof.
  intros He Hb. rewrite (bypass_owners_pass_first _ _ _ _ t) by done.
  rewrite bypass_owners_step_retry by done.
  by rewrite retried_S, retried_0.
Qed.

Lemma bypass_items_pass_retry net fuel page t st :
  Bypass.solution_text (net (clock st) (ItemsUrl page)) = Some t →
  loads t = None →
  Bypass.items_pass net fuel page st =
  Ok (Continue page) (retried (ItemsUrl page) Bypass.RETRY_DELAY 1 st).
Proof.
  intros He Hb. unfold Bypass.items_pass, Bypass.fetch_items, bind.
  rewrite (bypass_fetch_first _ _ _ t) by done.
  unfold Bypass.items_step. rewrite Hb.
  by rewrite retried_S, retried_0.
Qed.

(** A pass that keeps ending in a retry of the same page for the next
    [n] requests uses up [n] rounds of the loop and nothing else. *)
Lemma while_true_retries body u d page n :
  ∀ fuel st,
    (∀ k f, (k < n)%nat →
            body f page (retried u d k st) =
            Ok (Continue page) (retried u d 1 (retried u d k st))) →
    while_true (n + fuel) body page st =
    while_true fuel body page (retried u d n st).
Proof.
  induction n as [|n IH]; intros fuel st H.
  - by rewrite retried_0.
  - change (S n + fuel)%nat with (S (n + fuel)).
    rewrite while_true_unfold.
    specialize (H 0%nat (n + fuel)%nat ltac:(lia)) as H0.
    rewrite retried_0 in H0. rewrite H0.
    rewrite IH.
    + by rewrite retried_shift.
    + intros k f Hk. rewrite retried_shift. apply H. lia.
Qed.

End parse_failures.

(** C6, as the code has it: when a body does not decode, the pass ends
    with the delay of 10 s and the loop asks for the same page again, that
    is, the whole fetch is repeated.  Neither mode counts these rounds:
    whatever [n], if the next [n] bodies do not decode (the status not
    being 429 in direct mode, the envelope being well formed in bypass
    mode), the loop spends [n] rounds on [n] requests for that page, each
    followed by the delay, and goes on from there. *)
Theorem parse_failure_retries_unbounded (n fuel : nat) :
  (∀ net i page st,
      (∀ k, (k < n)%nat →
            (net (clock st + k)%nat (OwnersUrl i page)).1 ≠ 429 ∧
            loads (net (clock st + k)%nat (OwnersUrl i page)).2 = None) →
      while_true (n + fuel) (Direct.owners_pass net i) page st =
      while_true fuel (Direct.owners_pass net i) page
        (retried (OwnersUrl i page) 10000 n st))
  ∧ (∀ net page st,
      (∀ k, (k < n)%nat →
            (net (clock st + k)%nat (ItemsUrl page)).1 ≠ 429 ∧
            loads (net (clock st + k)%nat (ItemsUrl page)).2 = None) →
      while_true (n + fuel) (Direct.items_pass net) page st =
      while_true fuel (Direct.items_pass net) page
        (retried (ItemsUrl page) 10000 n st))
  ∧ (∀ net i page st,
      (∀ k, (k < n)%nat →
            ∃ t, Bypass.solution_text (net (clock st + k)%nat (OwnersUrl i page))
                   = Some t ∧ loads t = None) →
      while_true (n + fuel) (Bypass.owners_pass net i) page st =
      while_true fuel (Bypass.owners_pass net i) page
        (retried (OwnersUrl i page) 10000 n st))
  ∧ (∀ net page st,
      (∀ k, (k < n)%nat →
            ∃ t, Bypass.solution_text (net (clock st + k)%nat (ItemsUrl page))
                   = Some t ∧ loads t = None) →
      while_true (n + fuel) (Bypass.items_pass net) page st =
      while_true fuel (Bypass.items_pass net) page
        (retried (ItemsUrl page) 10000 n st)).
Proof.
  split_and!.
  - intros net i page st H. apply while_true_retries. intros k f Hk.
    destruct (H k Hk) as [Hc Hb]. by apply direct_owners_pass_retry.
  - intros net page st H. apply while_true_retries. intros k f Hk.
    destruct (H k Hk) as [Hc Hb]. by apply direct_items_pass_retry.
  - intros net i page st H. apply while_true_retries. intros k f Hk.
    destruct (H k Hk) as (t & He & Hb). by eapply bypass_owners_pass_retry.
  - intros net page st H. apply while_true_retries. intros k f Hk.
    destruct (H k Hk) as (t & He & Hb). by eapply bypass_items_pass_retry.
Qed.

Lemma parse_failure_retries_unbounded_witness :
  while_true (10 + 10) (Bypass.items_pass (Scenarios.garbled_items 10)) 1 init =
  while_true 10 (Bypass.items_pass (Scenarios.garbled_items 10)) 1
    (retried (ItemsUrl 1) 10000 10 init).
Proof.
  apply (parse_failure_retries_unbounded 10 10). intros k Hk.
  exists NotJson. split; [|reflexivity].
  unfold Scenarios.garbled_items. cbn [init clock Nat.add].
  apply Nat.ltb_lt in Hk. by rewrite Hk.
Defined.

(** Ten bodies in a row that do not decode, in bypass mode: the items
    page, then the owners page, is asked eleven times, past the caps of 5
    and 7, and the run still completes with the data. *)
Lemma bypass_parse_retries_exceed_caps :
  (∃ st, Bypass.process_all_items (Scenarios.garbled_items 10) 20 init = Ok tt st ∧
         items st = Scenarios.hat_snapshot ∧
         items_pages (trace st) = replicate 11 1 ∧
         ¬ (length (items_pages (trace st)) ≤ 5 + 1)%nat)
  ∧ (∃ st, Bypass.process_all_items (Scenarios.garbled_owners 10) 20 init = Ok tt st ∧
           items st = Scenarios.hat_snapshot ∧
           owners_pages (IdInt 10) (trace st) = replicate 11 1 ∧
           ¬ (length (owners_pages (IdInt 10) (trace st)) ≤ 7 + 1)%nat).
Proof.
  split; eexists; (split; [vm_compute; reflexivity|]);
    (split; [vm_compute; reflexivity|]); split; [reflexivity| |reflexivity|];
    vm_compute; lia.
Qed.

(** ** Runs over well-behaved sources *)

Section good_runs.

Lemma items_pages_app tr1 tr2 :
  items_pages (tr1 ++ tr2) = items_pages tr1 ++ items_pages tr2.
Proof. apply omap_app. Qed.

(** Once the reply has come in, the two modes treat a page of owners in
    the same way. *)
Lemma owners_step_modes i page u code t st :
  Direct.owners_step i page (Direct.Response u code t) st =
  Bypass.owners_step i page (Some t) st.
Proof. reflexivity. Qed.

Lemma direct_owners_pass_first net i fuel page st :
  (net (clock st) (OwnersUrl i page)).1 ≠ 429 →
  Direct.owners_pass net i fuel page st =
  Bypass.owners_step i page (Some (net (clock st) (OwnersUrl i page)).2)
    (State (items st) (S (clock st)) (trace st ++ [Request (OwnersUrl i page)])).
Proof.
  intros H. unfold Direct.owners_pass, Direct.fetch_owners, Direct.get.
  unfold bind. by rewrite direct_handle_rate_limit_pass.
Qed.

(** A decoded page of owners merged into a registered item: the step
    returns, asks for no items page, keeps the item registered, and
    goes on only below the declared number of pages. *)
Lemma owners_step_good i page o st :
  is_Some (items st !! i) →
  ∃ c st', Bypass.owners_step i page (Some (JsonText o)) st = Ok c st' ∧
           is_Some (items st' !! i) ∧
           items_pages (trace st') = items_pages (trace st) ∧
           (c = Break ∨ (c = Continue (page + 1) ∧ page < default 0 (pages o))).
Proof.
  intros [it Hit].
  destruct (default [] (inventories o)) as [|inv invs] eqn:E.
  - exists Break, st. rewrite (bypass_owners_step_empty _ _ _ o) by done. eauto.
  - erewrite bypass_owners_step_merge; [|done..]. cbn zeta.
    case_decide as Hp.
    + eexists _, _. split; [done|]. cbn [items trace].
      rewrite lookup_insert_eq. eauto.
    + eexists _, _. split; [done|]. cbn [log items trace].
      rewrite lookup_insert_eq, items_pages_app. simpl.
      rewrite app_nil_r. split_and!; [eauto|done|]. right. split; [done|lia].
Qed.

(** The owners loop over a source whose every reply decodes and declares
    at most [P] pages. *)
Lemma owners_loop_ends body i P :
  (∀ f page st, ∃ o,
      default 0 (pages o) ≤ P ∧
      body f page st =
      Bypass.owners_step i page (Some (JsonText o))
        (State (items st) (S (clock st))
               (trace st ++ [Request (OwnersUrl i page)]))) →
  ∀ fuel page st,
    is_Some (items st !! i) →
    (Z.to_nat (P - page) < fuel)%nat →
    ∃ st', while_true fuel body page st = Ok tt st' ∧
           items_pages (trace st') = items_pages (trace st).
Proof.
  intros Hbody. induction fuel as [|fuel IH]; intros page st Hreg Hfuel; [lia|].
  rewrite while_true_unfold.
  destruct (Hbody fuel page st) as (o & HP & ->).
  destruct (owners_step_good i page o
              (State (items st) (S (clock st))
                     (trace st ++ [Request (OwnersUrl i page)])))
    as (c & st1 & -> & Hreg1 & Htr & Hc); [done|].
  cbn [trace] in Htr. rewrite items_pages_app in Htr. simpl in Htr.
  rewrite app_nil_r in Htr.
  destruct Hc as [->|[-> Hlt]].
  - eauto.
  - destruct (IH (page + 1) st1 Hreg1) as (st' & Hrun & Htr'); [lia|].
    exists st'. split; [done|]. congruence.
Qed.

(** Registering an entry makes its id known and asks for nothing. *)
Lemma register_run e st :
  ∃ st', register e st = Ok tt st' ∧ is_Some (items st' !! id e) ∧
         trace st' = trace st ∧ clock st' = clock st.
Proof.
  eexists. split; [done|]. cbn [items trace clock].
  rewrite lookup_insert_eq. eauto.
Qed.

Lemma for_each_good {A} (body : A → M unit) l :
  (∀ x st, ∃ st', body x st = Ok tt st' ∧
                  items_pages (trace st') = items_pages (trace st)) →
  ∀ st, ∃ st', for_each l body st = Ok tt st' ∧
               items_pages (trace st') = items_pages (trace st).
Proof.
  intros Hbody. induction l as [|x l IH]; intros st; simpl.
  - by exists st.
  - unfold bind. destruct (Hbody x st) as (st1 & -> & Htr1).
    destruct (IH st1) as (st' & Hrun & Htr'). exists st'.
    split; [done|]. congruence.
Qed.

(** Three passes of an items loop whose every pass asks for its page
    once and reads [lastPage = 3]. *)
Lemma items_loop_three body B :
  (∀ f page st, (B < f)%nat →
     ∃ st', body f page st =
            Ok (if decide (3 ≤ page) then Break else Continue (page + 1)) st' ∧
            items_pages (trace st') = items_pages (trace st) ++ [page]) →
  ∀ fuel st, (B + 3 < fuel)%nat →
    ∃ st', while_true fuel body 1 st = Ok tt st' ∧
           items_pages (trace st') = items_pages (trace st) ++ [1; 2; 3].
Proof.
  intros Hbody fuel st Hfuel.
  destruct fuel as [|[|[|fuel]]]; try lia.
  rewrite while_true_unfold.
  destruct (Hbody (S (S fuel)) 1 st) as (st1 & -> & Htr1); [lia|].
  rewrite decide_False by lia. rewrite while_true_unfold.
  destruct (Hbody (S fuel) (1 + 1) st1) as (st2 & -> & Htr2); [lia|].
  rewrite decide_False by lia. rewrite while_true_unfold.
  destruct (Hbody fuel (1 + 1 + 1) st2) as (st3 & -> & Htr3); [lia|].
  rewrite decide_True by lia. exists st3. split; [done|].
  rewrite Htr3, Htr2, Htr1, <- !app_assoc. done.
Qed.

End good_runs.
Section direct_three_pages.

Variable net : Direct.network.
Variable P : Z.

Hypothesis items_ok : ∀ n p,
  (net n (ItemsUrl p)).1 ≠ 429 ∧
  ∃ o, (net n (ItemsUrl p)).2 = JsonText o ∧ meta o ≫= lastPage = Some 3.

Hypothesis owners_ok : ∀ n i p,
  (net n (OwnersUrl i p)).1 ≠ 429 ∧
  ∃ o, (net n (OwnersUrl i p)).2 = JsonText o ∧ default 0 (pages o) ≤ P.

Lemma direct_process_entry_good f e st :
  (Z.to_nat (P - 1) < f)%nat →
  ∃ st', Direct.process_entry net f e st = Ok tt st' ∧
         items_pages (trace st') = items_pages (trace st).
Proof.
  intros Hf. unfold Direct.process_entry, bind.
  destruct (register_run e st) as (st1 & -> & Hreg & Htr & _).
  destruct (owners_loop_ends (Direct.owners_pass net (id e)) (id e) P)
    with (fuel := f) (page := 1) (st := st1) as (st' & Hrun & Htr');
    [|done|done|].
  - intros f' page s. destruct (owners_ok (clock s) (id e) page) as (Hc & o & Ho & HP).
    exists o. split; [done|]. rewrite direct_owners_pass_first by done.
    by rewrite Ho.
  - exists st'. split; [done|]. by rewrite Htr', Htr.
Qed.

Lemma direct_items_pass_good f page st :
  (Z.to_nat (P - 1) < f)%nat →
  ∃ st', Direct.items_pass net f page st =
         Ok (if decide (3 ≤ page) then Break else Continue (page + 1)) st' ∧
         items_pages (trace st') = items_pages (trace st) ++ [page].
Proof.
  intros Hf. destruct (items_ok (clock st) page) as (Hc & o & Ho & Hlast).
  unfold Direct.items_pass, Direct.fetch_items, Direct.get. unfold bind at 1 2.
  rewrite direct_handle_rate_limit_pass by done.
  unfold Direct.items_step. cbn [Direct.body]. rewrite Ho. cbn [loads].
  unfold bind at 1.
  destruct (for_each_good (Direct.process_entry net f) (default [] (data o)))
    with (st := State (items st) (S (clock st))
                      (trace st ++ [Request (ItemsUrl page)]))
    as (st1 & -> & Htr1).
  { intros e s. by apply direct_process_entry_good. }
  cbn [trace] in Htr1. rewrite items_pages_app in Htr1. simpl in Htr1.
  rewrite Hlast. cbn [default from_option Datatypes.id]. case_decide.
  - by exists st1.
  - eexists. split; [done|]. cbn [log trace]. rewrite items_pages_app.
    simpl. by rewrite app_nil_r.
Qed.

Lemma direct_three_pages fuel st :
  (Z.to_nat (P - 1) + 3 < fuel)%nat →
  ∃ st', while_true fuel (Direct.items_pass net) 1 st = Ok tt st' ∧
         items_pages (trace st') = items_pages (trace st) ++ [1; 2; 3].
Proof. apply items_loop_three. intros. by apply direct_items_pass_good. Qed.

End direct_three_pages.

Section bypass_three_pages.

Variable net : Bypass.network.
Variable P : Z.

Hypothesis items_ok : ∀ n p,
  ∃ o l, Bypass.solution_text (net n (ItemsUrl p)) = Some (JsonText o) ∧
         data o = Some l ∧ meta o ≫= lastPage = Some 3.

Hypothesis owners_ok : ∀ n i p,
  ∃ o, Bypass.solution_text (net n (OwnersUrl i p)) = Some (JsonText o) ∧
       default 0 (pages o) ≤ P.

Lemma bypass_process_entry_good f e st :
  (Z.to_nat (P - 1) < f)%nat →
  ∃ st', Bypass.process_entry net f e st = Ok tt st' ∧
         items_pages (trace st') = items_pages (trace st).
Proof.
  intros Hf. unfold Bypass.process_entry, bind.
  destruct (register_run e st) as (st1 & -> & Hreg & Htr & _).
  destruct (owners_loop_ends (Bypass.owners_pass net (id e)) (id e) P)
    with (fuel := f) (page := 1) (st := st1) as (st' & Hrun & Htr');
    [|done|done|].
  - intros f' page s. destruct (owners_ok (clock s) (id e) page) as (o & Ho & HP).
    exists o. split; [done|].
    by rewrite (bypass_owners_pass_first _ _ _ _ (JsonText o)).
  - exists st'. split; [done|]. by rewrite Htr', Htr.
Qed.

Lemma bypass_items_pass_good f page st :
  (Z.to_nat (P - 1) < f)%nat →
  ∃ st', Bypass.items_pass net f page st =
         Ok (if decide (3 ≤ page) then Break else Continue (page + 1)) st' ∧
         items_pages (trace st') = items_pages (trace st) ++ [page].
Proof.
  intros Hf. destruct (items_ok (clock st) page) as (o & l & Ho & Hl & Hlast).
  unfold Bypass.items_pass, Bypass.fetch_items. unfold bind at 1.
  rewrite (bypass_fetch_first _ _ _ (JsonText o)) by done.
  unfold Bypass.items_step. cbn [loads]. rewrite Hl.
  unfold bind at 1.
  destruct (for_each_good (Bypass.process_entry net f) l)
    with (st := State (items st) (S (clock st))
                      (trace st ++ [Request (ItemsUrl page)]))
    as (st1 & -> & Htr1).
  { intros e s. by apply bypass_process_entry_good. }
  cbn [trace] in Htr1. rewrite items_pages_app in Htr1. simpl in Htr1.
  rewrite Hlast. cbn [default from_option Datatypes.id]. case_decide.
  - by exists st1.
  - eexists. split; [done|]. cbn [log trace]. rewrite items_pages_app.
    simpl. by rewrite app_nil_r.
Qed.

Lemma bypass_three_pages fuel st :
  (Z.to_nat (P - 1) + 3 < fuel)%nat →
  ∃ st', while_true fuel (Bypass.items_pass net) 1 st = Ok tt st' ∧
         items_pages (trace st') = items_pages (trace st) ++ [1; 2; 3].
Proof. apply items_loop_three. intros. by apply bypass_items_pass_good. Qed.

End bypass_three_pages.

Section items_step_facts.

Lemma direct_items_step_break net fuel page r st c st' :
  Direct.items_step net fuel page r st = Ok c st' →
  c = Break ↔
  ∃ o, loads (Direct.body r) = Some o ∧
       default page (meta o ≫= lastPage) ≤ page.
Proof.
  unfold Direct.items_step. destruct (loads (Direct.body r)) as [o|] eqn:E.
  - unfold bind.
    destruct (for_each _ _ st) as [[] s| |]; try done.
    case_decide as Hp.
    + intros [= <- <-]. split; [|done]. intros _. by exists o.
    + intros [= <- <-]. split; [done|]. intros (o' & [= <-] & H). lia.
  - intros [= <- <-]. split; [done|]. by intros (o & ? & _).
Qed.

Lemma bypass_items_step_break net fuel page r st c st' :
  Bypass.items_step net fuel page r st = Ok c st' →
  c = Break ↔
  ∃ t o l, r = Some t ∧ loads t = Some o ∧ data o = Some l ∧
           default page (meta o ≫= lastPage) ≤ page.
Proof.
  unfold Bypass.items_step. destruct r as [t|].
  - destruct (loads t) as [o|] eqn:E.
    + destruct (data o) as [l|] eqn:El.
      * unfold bind. destruct (for_each _ _ st) as [[] s| |]; try done.
        case_decide as Hp.
        -- intros [= <- <-]. split; [|done]. intros _. by exists t, o, l.
        -- intros [= <- <-]. split; [done|].
           intros (t' & o' & l' & [= <-] & Ho & _ & H).
           rewrite E in Ho. injection Ho as <-. lia.
      * intros [= <- <-]. split; [done|].
        intros (t' & o' & l' & [= <-] & Ho & Hl & _).
        rewrite E in Ho. injection Ho as <-. by rewrite El in Hl.
    + intros [= <- <-]. split; [done|].
      intros (t' & o' & l' & [= <-] & Ho & _). by rewrite E in Ho.
  - intros [= <- <-]. split; [done|]. by intros (t & o & l & ? & _).
Qed.

(** A page without a list under [data] sends the bypass loop on to the
    next page, whatever its [lastPage]. *)
Lemma bypass_items_step_no_data net fuel page t o st :
  loads t = Some o → data o = None →
  Bypass.items_step net fuel page (Some t) st = Ok (Continue (page + 1)) st.
Proof. intros H1 H2. unfold Bypass.items_step. by rewrite H1, H2. Qed.

End items_step_facts.

(** C4, as the code has it: a pass of the items loop over a page it has
    decoded (and, in bypass mode, found a list under [data] in) ends the
    loop exactly when [page >= lastPage], an absent [lastPage] or [meta]
    standing for the current page and so ending it; bypass mode moves on
    to the next page without that test when [data] is no list.  Against a
    source whose items pages all decode, carry a list under [data] and
    report [lastPage = 3], and whose owners pages decode and declare at
    most [P] pages, the run returns having asked for the items pages 1, 2
    and 3 and no other. *)
Theorem items_loop_termination :
  (∀ net fuel page r st c st',
      Direct.items_step net fuel page r st = Ok c st' →
      (c = Break ↔
       ∃ o, loads (Direct.body r) = Some o ∧
            default page (meta o ≫= lastPage) ≤ page) ∧
      (∀ o, loads (Direct.body r) = Some o → meta o ≫= lastPage = None →
            c = Break))
  ∧ (∀ net fuel page r st c st',
      Bypass.items_step net fuel page r st = Ok c st' →
      (c = Break ↔
       ∃ t o l, r = Some t ∧ loads t = Some o ∧ data o = Some l ∧
                default page (meta o ≫= lastPage) ≤ page) ∧
      (∀ t o l, r = Some t → loads t = Some o → data o = Some l →
                meta o ≫= lastPage = None → c = Break))
  ∧ (∀ net fuel page t o st,
      loads t = Some o → data o = None →
      Bypass.items_step net fuel page (Some t) st = Ok (Continue (page + 1)) st)
  ∧ (∀ net P fuel st,
      (∀ n p, (net n (ItemsUrl p)).1 ≠ 429 ∧
              ∃ o, (net n (ItemsUrl p)).2 = JsonText o ∧
                   meta o ≫= lastPage = Some 3) →
      (∀ n i p, (net n (OwnersUrl i p)).1 ≠ 429 ∧
                ∃ o, (net n (OwnersUrl i p)).2 = JsonText o ∧
                     default 0 (pages o) ≤ P) →
      (Z.to_nat (P - 1) + 3 < fuel)%nat →
      ∃ st', Direct.process_all_items net fuel st = Ok tt st' ∧
             items_pages (trace st') = items_pages (trace st) ++ [1; 2; 3])
  ∧ (∀ net P fuel st,
      (∀ n p, ∃ o l,
          Bypass.solution_text (net n (ItemsUrl p)) = Some (JsonText o) ∧
          data o = Some l ∧ meta o ≫= lastPage = Some 3) →
      (∀ n i p, ∃ o,
          Bypass.solution_text (net n (OwnersUrl i p)) = Some (JsonText o) ∧
          default 0 (pages o) ≤ P) →
      (Z.to_nat (P - 1) + 3 < fuel)%nat →
      ∃ st', Bypass.process_all_items net fuel st = Ok tt st' ∧
             items_pages (trace st') = items_pages (trace st) ++ [1; 2; 3]).
Proof.
  split_and!.
  - intros net fuel page r st c st' H.
    pose proof (direct_items_step_break _ _ _ _ _ _ _ H) as Hiff.
    split; [done|]. intros o Ho Hm. apply Hiff. exists o. split; [done|].
    rewrite Hm. simpl. lia.
  - intros net fuel page r st c st' H.
    pose proof (bypass_items_step_break _ _ _ _ _ _ _ H) as Hiff.
    split; [done|]. intros t o l -> Ho Hl Hm. apply Hiff. exists t, o, l.
    split_and!; try done. rewrite Hm. simpl. lia.
  - apply bypass_items_step_no_data.
  - intros net P fuel st Hi Ho Hf. by apply (direct_three_pages net P).
  - intros net P fuel st Hi Ho Hf. by apply (bypass_three_pages net P).
Qed.

(** The run of the theorem on a concrete source, in both modes. *)
Lemma items_loop_termination_witness :
  (∃ st', Direct.process_all_items Scenarios.three_pages_direct 5 init = Ok tt st' ∧
          items_pages (trace st') = items_pages (trace init) ++ [1; 2; 3])
  ∧ (∃ st', Bypass.process_all_items Scenarios.three_pages_bypass 5 init = Ok tt st' ∧
            items_pages (trace st') = items_pages (trace init) ++ [1; 2; 3]).
Proof.
  destruct items_loop_termination as (_ & _ & _ & Hd & Hb). split.
  - apply (Hd Scenarios.three_pages_direct 2 5%nat init).
    + intros n p. split; [done|]. eexists. split; reflexivity.
    + intros n i p. split; [done|]. eexists. split; [reflexivity|]. simpl. lia.
    + simpl. lia.
  - apply (Hb Scenarios.three_pages_bypass 2 5%nat init).
    + intros n p. eexists _, _. split_and!; reflexivity.
    + intros n i p. eexists. split; [reflexivity|]. simpl. lia.
    + simpl. lia.
Defined.

Example three_pages_run :
  ∃ st, Bypass.process_all_items Scenarios.three_pages_bypass 5 init = Ok tt st ∧
        requests (trace st) =
        [ItemsUrl 1; OwnersUrl (IdInt 1) 1; OwnersUrl (IdInt 1) 2;
         ItemsUrl 2; OwnersUrl (IdInt 2) 1; OwnersUrl (IdInt 2) 2;
         ItemsUrl 3; OwnersUrl (IdInt 3) 1; OwnersUrl (IdInt 3) 2] ∧
        items st !! IdInt 2 = Some (Item "" [Owner "a" 2; Owner "b" 1]).
Proof.
  eexists. split_and!; [vm_compute; reflexivity|reflexivity|vm_compute; reflexivity].
Qed.

(** In bypass mode a source may report [lastPage = 3] on every page and
    still be asked for a fourth page: the third page, having no list
    under [data], is passed over without the test. *)
Lemma bypass_fourth_page_asked :
  (∀ n p, ∃ o, Bypass.solution_text (Scenarios.third_without_data n (ItemsUrl p))
                 = Some (JsonText o) ∧ meta o ≫= lastPage = Some 3)
  ∧ ∃ st, Bypass.process_all_items Scenarios.third_without_data 5 init = Ok tt st ∧
          items_pages (trace st) = [1; 2; 3; 4] ∧
          items_pages (trace st) ≠ [1; 2; 3].
Proof.
  split.
  - intros n p. eexists. split; reflexivity.
  - eexists. split_and!; [vm_compute; reflexivity|reflexivity|done].
Qed.

(** C7: registering an entry puts a fresh record with the entry's name
    and no owners under its id, whatever was there, and touches no other
    id; so what processing the entry leaves behind, in either mode, does
    not depend on what the snapshot held for that id before: earlier
    counts are dropped, not merged. *)
Theorem item_collision_resets
    (dnet : Direct.network) (bnet : Bypass.network) (fuel : nat) (e : entry)
    (m1 m2 : gmap item_id item) (c : nat) (tr : list event) :
  delete (id e) m1 = delete (id e) m2 →
  (∃ st, register e (State m1 c tr) = Ok tt st ∧
         items st !! id e = Some (Item (default "" (entry_name e)) []) ∧
         (∀ j, j ≠ id e → items st !! j = m1 !! j) ∧
         clock st = c ∧ trace st = tr)
  ∧ Direct.process_entry dnet fuel e (State m1 c tr) =
    Direct.process_entry dnet fuel e (State m2 c tr)
  ∧ Bypass.process_entry bnet fuel e (State m1 c tr) =
    Bypass.process_entry bnet fuel e (State m2 c tr).
Proof.
  intros Hm.
  assert (∀ x, <[id e := x]> m1 = <[id e := x]> m2) as Hins.
  { intros x. by rewrite <- (insert_delete_eq m1), <- (insert_delete_eq m2), Hm. }
  split_and!.
  - eexists. split; [done|]. cbn [items clock trace].
    rewrite lookup_insert_eq. split_and!; try done.
    intros j Hj. by rewrite lookup_insert_ne.
  - unfold Direct.process_entry, bind, register. cbn [items clock trace].
    by rewrite Hins.
  - unfold Bypass.process_entry, bind, register. cbn [items clock trace].
    by rewrite Hins.
Qed.

Lemma item_collision_resets_witness :
  Bypass.process_entry Scenarios.hat_bypass 3 (Entry (IdInt 10) (Some "Hat"))
    (State {[ IdInt 10 := Item "Old" [Owner "z" 9] ]} 0 []) =
  Bypass.process_entry Scenarios.hat_bypass 3 (Entry (IdInt 10) (Some "Hat"))
    (State ∅ 0 []).
Proof.
  apply (item_collision_resets Scenarios.hat_direct Scenarios.hat_bypass 3
           (Entry (IdInt 10) (Some "Hat"))
           {[ IdInt 10 := Item "Old" [Owner "z" 9] ]} ∅ 0 []).
  vm_compute. reflexivity.
Defined.

(** An id listed twice: only what the second round found is kept. *)
Example listed_twice_run :
  (∃ st, Direct.process_all_items Scenarios.listed_twice_direct 3 init = Ok tt st ∧
         items st = {[ IdInt 10 := Item "Cap" [Owner "y" 1] ]})
  ∧ (∃ st, Bypass.process_all_items Scenarios.listed_twice_bypass 3 init = Ok tt st ∧
           items st = {[ IdInt 10 := Item "Cap" [Owner "y" 1] ]}).
Proof.
  split; eexists; (split; [vm_compute; reflexivity|vm_compute; reflexivity]).
Qed.

(** ** Reporting *)

Section report_facts.

Import Report.

Lemma sum_app l1 l2 : sum (l1 ++ l2) = sum l1 + sum l2.
Proof. unfold sum. induction l1 as [|x l1 IH]; simpl; lia. Qed.

Lemma dict_set_new d k v : k ∉ keys d → dict_set d k v = d ++ [(k, v)].
Proof.
  unfold keys. induction d as [|[k' v'] d IH]; simpl; [done|].
  intros H. apply not_elem_of_cons in H as [H1 H2].
  case_decide; [congruence|]. by rewrite IH.
Qed.

Lemma dict_of_snoc l kv : dict_of (l ++ [kv]) = dict_set (dict_of l) kv.1 kv.2.
Proof. unfold dict_of. by rewrite foldl_app. Qed.

(** Pairs with distinct keys already are the dict they build. *)
Lemma dict_of_NoDup l : NoDup (keys l) → dict_of l = l.
Proof.
  unfold keys. induction l as [|[k v] l IH] using rev_ind; [done|].
  rewrite fmap_app, dict_of_snoc. simpl. intros H.
  apply NoDup_app in H as (Hl & Hk & _). rewrite IH by done.
  apply dict_set_new. intros Hin. apply (Hk k Hin), list_elem_of_here.
Qed.

Lemma slice_to_take {A} (l : list A) k : ∃ n, slice_to l k = take n l.
Proof. unfold slice_to. case_decide; eauto. Qed.

Lemma NoDup_keys_take n (d : dict) : NoDup (keys d) → NoDup (keys (take n d)).
Proof.
  unfold keys. rewrite fmap_take. intros H.
  rewrite <- (take_drop n (d.*1)) in H. by apply NoDup_app in H as (H & _).
Qed.

(** Short of a kept label that reads Others, the result has the total of
    the input. *)
Lemma aggregate_others_total d top_n :
  NoDup (keys d) → "Others" ∉ keys (slice_to d top_n) →
  sum (values (aggregate_others d top_n)) = sum (values d).
Proof.
  intros Hd Ho. unfold aggregate_others. case_decide; [done|].
  destruct (slice_to_take d top_n) as [n Hn]. rewrite Hn in *.
  rewrite dict_of_NoDup by by apply NoDup_keys_take.
  rewrite dict_set_new by done.
  unfold values. rewrite fmap_app, sum_app. unfold sum at 2. simpl. lia.
Qed.

Lemma aggregate_others_copy d top_n :
  Z.of_nat (length d) ≤ top_n → aggregate_others d top_n = d.
Proof. intros H. unfold aggregate_others. by rewrite decide_True. Qed.

Lemma insert_desc_Permutation x l : insert_desc x l ≡ₚ x :: l.
Proof.
  induction l as [|y l IH]; simpl; [done|]. case_decide; [|done].
  rewrite IH. apply Permutation_swap.
Qed.

(** The model of [sorted] rearranges its input and nothing more. *)
Lemma sorted_desc_Permutation l : sorted_desc l ≡ₚ l.
Proof.
  induction l as [|x l IH]; simpl; [done|].
  by rewrite insert_desc_Permutation, IH.
Qed.

Lemma insert_desc_sorted x l :
  Sorted (λ a b, b.2 ≤ a.2) l → Sorted (λ a b, b.2 ≤ a.2) (insert_desc x l).
Proof.
  induction 1 as [|y l Hl IH Hy]; simpl.
  - by repeat constructor.
  - case_decide as Hxy.
    + constructor; [done|]. destruct Hy as [|z l Hz]; simpl.
      * constructor. lia.
      * case_decide; constructor; lia.
    + constructor; [by constructor|]. constructor. lia.
Qed.

Lemma sorted_desc_sorted l : Sorted (λ a b, b.2 ≤ a.2) (sorted_desc l).
Proof.
  induction l as [|x l IH]; simpl; [constructor|]. by apply insert_desc_sorted.
Qed.

End report_facts.

(** C8: the counts alice 5, bob 3, carol 9, dave 1, sorted by count with
    the largest first, come in the order carol, alice, bob, dave, in
    whatever order they were entered; [aggregate_others] with [top_n = 2]
    then gives carol 9, alice 5, Others 4. *)
Theorem top_two_and_others :
  Report.keys (Report.sorted_counts Scenarios.four_users) =
    ["carol"; "alice"; "bob"; "dave"]
  ∧ Report.aggregate_others (Report.sorted_counts Scenarios.four_users) 2 =
    [("carol", 9); ("alice", 5); ("Others", 4)]
  ∧ Forall (λ d, Report.sorted_counts d =
                 [("carol", 9); ("alice", 5); ("bob", 3); ("dave", 1)])
           (permutations Scenarios.four_users).
Proof.
  split_and!; [reflexivity|reflexivity|].
  vm_compute. repeat constructor.
Qed.

(** C10 on an input the code mishandles: a label Others among the kept
    entries is overwritten by the remainder, so its count is lost and the
    result sums to 5 where the input sums to 10. *)
Theorem aggregate_others_overwrites_label :
  Report.aggregate_others Scenarios.others_on_top 2 = [("Others", 2); ("a", 3)]
  ∧ Report.sum (Report.values (Report.aggregate_others Scenarios.others_on_top 2)) = 5
  ∧ Report.sum (Report.values Scenarios.others_on_top) = 10
  ∧ Report.sorted_counts Scenarios.others_on_top = Scenarios.others_on_top.
Proof. split_and!; reflexivity. Qed.


(** ** The snapshot file *)

Section snapshot_facts.

Import Snapshot.

Lemma load_snoc doc k v : load (doc ++ [(k, v)]) = <[IdStr k := v]> (load doc).
Proof. unfold load. by rewrite foldl_app. Qed.

(** A key written once is read back with its value. *)
Lemma load_lookup_unique doc k v :
  (k, v) ∈ doc → (∀ v', (k, v') ∈ doc → v' = v) →
  load doc !! IdStr k = Some v.
Proof.
  induction doc as [|[k' v'] doc IH] using rev_ind; intros Hin Huniq.
  - by apply elem_of_nil in Hin.
  - rewrite load_snoc. destruct (decide (k' = k)) as [->|Hne].
    + rewrite lookup_insert_eq. f_equal. apply Huniq.
      apply elem_of_app. right. apply list_elem_of_here.
    + rewrite lookup_insert_ne by congruence. apply IH.
      * apply elem_of_app in Hin as [Hin|Hin]; [done|].
        apply list_elem_of_singleton in Hin. congruence.
      * intros v'' H. apply Huniq, elem_of_app. by left.
Qed.

Lemma load_lookup_some doc j v :
  load doc !! j = Some v → ∃ k, j = IdStr k ∧ (k, v) ∈ doc.
Proof.
  induction doc as [|[k' v'] doc IH] using rev_ind; [done|].
  rewrite load_snoc. destruct (decide (IdStr k' = j)) as [<-|Hne].
  - rewrite lookup_insert_eq. intros [= <-]. exists k'. split; [done|].
    apply elem_of_app. right. apply list_elem_of_here.
  - rewrite lookup_insert_ne by done. intros H.
    destruct (IH H) as (k & -> & Hin). exists k. split; [done|].
    apply elem_of_app. by left.
Qed.

Lemma elem_of_dump (m : gmap item_id item) s v :
  (s, v) ∈ dump m ↔ ∃ k, json_key k = s ∧ m !! k = Some v.
Proof.
  unfold dump. rewrite list_elem_of_fmap. split.
  - intros ([k v'] & [= -> ->] & Hin). exists k. split; [done|].
    by apply elem_of_map_to_list in Hin.
  - intros (k & <- & Hk). exists (k, v). split; [done|].
    by apply elem_of_map_to_list.
Qed.

Lemma round_trip_unique_key (m : gmap item_id item) k v :
  m !! k = Some v →
  (∀ k', is_Some (m !! k') → json_key k' = json_key k → k' = k) →
  load (dump m) !! IdStr (json_key k) = Some v.
Proof.
  intros Hk Huniq. apply load_lookup_unique.
  - apply elem_of_dump. eauto.
  - intros v' Hin. apply elem_of_dump in Hin as (k' & Hkey & Hk').
    rewrite (Huniq k') in Hk' by eauto. congruence.
Qed.

Lemma round_trip_keys (m : gmap item_id item) j :
  is_Some (load (dump m) !! j) ↔
  ∃ k, is_Some (m !! k) ∧ j = IdStr (json_key k).
Proof.
  split.
  - intros [v Hv]. apply load_lookup_some in Hv as (s & -> & Hin).
    apply elem_of_dump in Hin as (k & <- & Hk). eauto.
  - intros (k & [v Hk] & ->).
    destruct (load (dump m) !! IdStr (json_key k)) as [v'|] eqn:E; [eauto|].
    exfalso. assert ((json_key k, v) ∈ dump m) as Hin
      by (apply elem_of_dump; eauto).
    revert E Hin. generalize (dump m) (json_key k). clear.
    intros doc s. induction doc as [|[k' v'] doc IH] using rev_ind.
    + intros _ Hin. by apply elem_of_nil in Hin.
    + rewrite load_snoc. destruct (decide (k' = s)) as [->|Hne].
      * by rewrite lookup_insert_eq.
      * rewrite lookup_insert_ne by congruence. intros E Hin.
        apply IH; [done|]. apply elem_of_app in Hin as [Hin|Hin]; [done|].
        apply list_elem_of_singleton in Hin. congruence.
Qed.

Lemma round_trip_strings (m : gmap item_id item) :
  (∀ k, is_Some (m !! k) → ∃ s, k = IdStr s) → load (dump m) = m.
Proof.
  intros Hstr. apply map_eq. intros j.
  destruct (m !! j) as [v|] eqn:Ej.
  - destruct (Hstr j) as [s ->]; [eauto|].
    apply (round_trip_unique_key m (IdStr s) v Ej).
    intros k' Hk' Hkey. destruct (Hstr k' Hk') as [s' ->]. simpl in Hkey.
    by subst.
  - destruct (load (dump m) !! j) as [v|] eqn:E; [|done].
    assert (is_Some (load (dump m) !! j)) as Hs by eauto.
    apply round_trip_keys in Hs as (k & Hk & ->).
    destruct (Hstr k Hk) as [s ->]. simpl in Ej.
    destruct Hk as [w Hw]. congruence.
Qed.

Lemma round_trip_integers (m : gmap item_id item) :
  (∀ k, is_Some (m !! k) → ∃ n, k = IdInt n) →
  ∀ n : Z, load (dump m) !! IdStr (pretty n) = m !! IdInt n.
Proof.
  intros Hint n. destruct (m !! IdInt n) as [v|] eqn:En.
  - apply (round_trip_unique_key m (IdInt n) v En).
    intros k' Hk' Hkey. destruct (Hint k' Hk') as [n' ->]. simpl in Hkey.
    by apply (inj pretty) in Hkey as ->.
  - destruct (load (dump m) !! IdStr (pretty n)) as [v|] eqn:E; [|done].
    assert (is_Some (load (dump m) !! IdStr (pretty n))) as Hs by eauto.
    apply round_trip_keys in Hs as (k & Hk & Heq).
    destruct (Hint k Hk) as [n' ->]. simpl in Heq.
    injection Heq as Heq. apply (inj pretty) in Heq as ->.
    destruct Hk as [w Hw]. congruence.
Qed.

End snapshot_facts.

(** C9, as the code has it: saving a snapshot and loading the file gives
    a mapping keyed by the JSON form of each id, a string: an integer id
    comes back as its decimal digits.  Its keys are exactly those forms;
    an id whose form no other id of the snapshot shares comes back under
    it with its name and its owners unchanged; a snapshot keyed by strings
    comes back identical, and one keyed by integers comes back entry for
    entry under the digits. *)
Theorem snapshot_round_trip
    (m : gmap item_id item) (path : string) (fs : Snapshot.file_system) :
  ∃ m', Snapshot.load_file path (Snapshot.save_owners m path fs) = Some m' ∧
        (∀ j, is_Some (m' !! j) ↔
              ∃ k, is_Some (m !! k) ∧ j = IdStr (Snapshot.json_key k)) ∧
        (∀ k v, m !! k = Some v →
                (∀ k', is_Some (m !! k') →
                       Snapshot.json_key k' = Snapshot.json_key k → k' = k) →
                m' !! IdStr (Snapshot.json_key k) = Some v) ∧
        ((∀ k, is_Some (m !! k) → ∃ s, k = IdStr s) → m' = m) ∧
        ((∀ k, is_Some (m !! k) → ∃ n, k = IdInt n) →
         ∀ n : Z, m' !! IdStr (pretty n) = m !! IdInt n).
Proof.
  exists (Snapshot.load (Snapshot.dump m)). split_and!.
  - unfold Snapshot.load_file, Snapshot.save_owners, Snapshot.file_system in *.
    by rewrite lookup_insert_eq.
  - apply round_trip_keys.
  - apply round_trip_unique_key.
  - apply round_trip_strings.
  - apply round_trip_integers.
Qed.

Lemma snapshot_round_trip_witness :
  ∃ m', Snapshot.load_file "owners.json"
          (Snapshot.save_owners Scenarios.hat_snapshot "owners.json" ∅) = Some m' ∧
        m' !! IdStr "10" = Some (Item "Hat" [Owner "x" 2]).
Proof.
  destruct (snapshot_round_trip Scenarios.hat_snapshot "owners.json" ∅)
    as (m' & Hload & _ & _ & _ & Hint).
  exists m'. split; [done|].
  change (IdStr "10") with (IdStr (pretty 10)). rewrite Hint; [reflexivity|].
  intros k Hk. exists 10. unfold Scenarios.hat_snapshot in Hk.
  destruct (decide (k = IdInt 10)) as [->|Hne]; [done|].
  rewrite lookup_singleton_ne in Hk by done. by destruct Hk.
Defined.

(** The snapshot of the specification's scenario, keyed by the integer
    10, is read back keyed by the string 10: not the mapping that was
    saved, and without an entry under the integer. *)
Lemma integer_ids_come_back_as_strings :
  Snapshot.load_file "owners.json"
    (Snapshot.save_owners Scenarios.hat_snapshot "owners.json" ∅)
  = Some {[ IdStr "10" := Item "Hat" [Owner "x" 2] ]}
  ∧ Snapshot.load_file "owners.json"
      (Snapshot.save_owners Scenarios.hat_snapshot "owners.json" ∅)
    ≠ Some Scenarios.hat_snapshot.
Proof.
  assert (Snapshot.load_file "owners.json"
            (Snapshot.save_owners Scenarios.hat_snapshot "owners.json" ∅)
          = Some {[ IdStr "10" := Item "Hat" [Owner "x" 2] ]}) as H
    by (vm_compute; reflexivity).
  split; [done|]. rewrite H. intros Heq.
  apply (f_equal (λ o : option (gmap item_id item), o ≫= (.!! IdInt 10))) in Heq.
  vm_compute in Heq. discriminate.
Qed.

(** * Further properties of the code *)

(** ** The merge, from any owner list *)

Section tally_facts.

Import Tally.

Lemma count_of_merge_owner owners u v :
  count_of v (merge_owner owners u) =
  count_of v owners + (if decide (u = v) then 1 else 0).
Proof.
  induction owners as [|o rest IH]; simpl.
  - repeat case_decide; lia.
  - destruct (decide (name o = u)) as [E|E]; simpl.
    + subst u. repeat case_decide; lia.
    + rewrite IH. lia.
Qed.

Lemma names_merge_owner_prefix owners u :
  names owners `prefix_of` names (merge_owner owners u).
Proof.
  destruct (decide (u ∈ names owners)) as [Hin|Hout].
  - by rewrite names_merge_present.
  - rewrite names_merge_absent by done. by apply prefix_app_r.
Qed.

Lemma merge_owner_positive owners u :
  Forall (λ o, 1 ≤ count o) owners →
  Forall (λ o, 1 ≤ count o) (merge_owner owners u).
Proof.
  induction 1 as [|o rest Ho Hrest IH]; simpl.
  - by repeat constructor.
  - case_decide; constructor; simpl; try done. lia.
Qed.

Lemma merge_owner_well_formed owners u :
  well_formed_owners owners → well_formed_owners (merge_owner owners u).
Proof.
  intros [Hnd Hpos]. split.
  - by apply NoDup_names_merge.
  - by apply merge_owner_positive.
Qed.

End tally_facts.

Lemma occurrences_usernames (u : string) (usernames : list string) :
  Tally.occurrences u (inv_of <$> usernames) =
  length (filter (λ s, s = u) usernames).
Proof.
  unfold Tally.occurrences. induction usernames as [|s l IH]; [done|].
  rewrite fmap_cons, !filter_cons.
  change (username_of (inv_of s)) with s. case_decide; simpl; by rewrite IH.
Qed.

(** X1: after a list of inventory records has been merged into any owner
    list, the count held for a name is what it was plus the number of
    records that carry the name; for records that carry the usernames of
    a list, that number is the number of times the name stands in the
    list. *)
Theorem merge_counts_occurrences
    (owners : list owner) (invs : list inventory) (usernames : list string)
    (u : string) :
  Tally.count_of u (merge_inventories owners invs) =
    Tally.count_of u owners + Z.of_nat (Tally.occurrences u invs)
  ∧ Tally.occurrences u (inv_of <$> usernames) =
    length (filter (λ s, s = u) usernames)
  ∧ Tally.count_of u (merge_inventories owners (inv_of <$> usernames)) =
    Tally.count_of u owners +
    Z.of_nat (length (filter (λ s, s = u) usernames)).
Proof.
  assert (∀ l, Tally.count_of u (merge_inventories owners l) =
               Tally.count_of u owners + Z.of_nat (Tally.occurrences u l)) as Hgen.
  { unfold merge_inventories, Tally.occurrences. intros l. revert owners.
    induction l as [|inv l IH]; intros owners; simpl; [lia|].
    rewrite IH, count_of_merge_owner, filter_cons.
    case_decide; simpl; lia. }
  split_and!; [apply Hgen|apply occurrences_usernames|].
  by rewrite Hgen, occurrences_usernames.
Qed.

Lemma merge_inventories_well_formed (owners : list owner) (invs : list inventory) :
  Tally.well_formed_owners owners →
  Tally.well_formed_owners (merge_inventories owners invs) ∧
  names owners `prefix_of` names (merge_inventories owners invs) ∧
  total (merge_inventories owners invs) = total owners + Z.of_nat (length invs).
Proof.
  unfold merge_inventories. revert owners.
  induction invs as [|inv invs IH]; intros owners Hwf; simpl.
  - split_and!; [done|done|lia].
  - destruct (IH (merge_owner owners (username_of inv))) as (H1 & H2 & H3).
    { by apply merge_owner_well_formed. }
    split_and!; [done| |].
    + etrans; [apply names_merge_owner_prefix|done].
    + rewrite H3, total_merge. lia.
Qed.


(** X2: merging records into an owner list without repeated names and
    with counts of at least 1 gives such a list again; the names that
    were there keep their places at the front, and the counts grow by the
    number of records in all. *)
Theorem merge_keeps_well_formed (owners : list owner) (invs : list inventory) :
  Tally.well_formed_owners owners →
  Tally.well_formed_owners (merge_inventories owners invs) ∧
  names owners `prefix_of` names (merge_inventories owners invs) ∧
  total (merge_inventories owners invs) = total owners + Z.of_nat (length invs).
Proof. apply merge_inventories_well_formed. Qed.

Lemma merge_keeps_well_formed_witness :
  Tally.well_formed_owners
    (merge_inventories [Owner "a" 2; Owner "b" 1] [inv_of "b"; inv_of "c"]) ∧
  names [Owner "a" 2; Owner "b" 1] `prefix_of`
    names (merge_inventories [Owner "a" 2; Owner "b" 1] [inv_of "b"; inv_of "c"]) ∧
  total (merge_inventories [Owner "a" 2; Owner "b" 1] [inv_of "b"; inv_of "c"]) =
    total [Owner "a" 2; Owner "b" 1] + Z.of_nat (length [inv_of "b"; inv_of "c"]).
Proof.
  apply (merge_keeps_well_formed [Owner "a" 2; Owner "b" 1]
           [inv_of "b"; inv_of "c"]).
  split.
  - apply (bool_decide_unpack (NoDup ["a"; "b"])). vm_compute. exact I.
  - repeat constructor; simpl; lia.
Defined.

(** ** Rate limiting in direct mode *)

Section rate_limit_facts.

Variable net : Direct.network.

Lemma direct_handle_rate_limit_unfold fuel r st :
  Direct.status_code r = 429 →
  Direct.handle_rate_limit net (S fuel) r st =
  Direct.handle_rate_limit net fuel
    (Direct.Response (Direct.resp_url r)
       (net (clock st) (Direct.resp_url r)).1
       (net (clock st) (Direct.resp_url r)).2)
    (State (items st) (S (clock st))
       (trace st ++ [Sleep Direct.RATE_LIMIT_DELAY; Request (Direct.resp_url r)])).
Proof.
  intros H. cbn [Direct.handle_rate_limit]. rewrite decide_True by done.
  unfold bind, sleep, Direct.get. cbn [log items clock trace].
  by rewrite <- app_assoc.
Qed.

End rate_limit_facts.

Lemma direct_handle_rate_limit_inv
    (net : Direct.network) (fuel : nat) (r r' : Direct.response) (st st' : state) :
  Direct.handle_rate_limit net fuel r st = Ok r' st' →
  Direct.status_code r' ≠ 429 ∧
  Direct.resp_url r' = Direct.resp_url r ∧
  items st' = items st ∧
  ∃ n, clock st' = (clock st + n)%nat ∧
       trace st' = trace st ++
                   mjoin (replicate n [Sleep 10000; Request (Direct.resp_url r)]).
Proof.
  revert r st. induction fuel as [|fuel IH]; intros r st.
  - simpl. case_decide as Hc; [done|]. intros [= <- <-].
    split_and!; try done. exists 0%nat. simpl.
    by rewrite Nat.add_0_r, app_nil_r.
  - destruct (decide (Direct.status_code r = 429)) as [Hc|Hc].
    + rewrite direct_handle_rate_limit_unfold by done. intros H.
      apply IH in H as (H1 & H2 & H3 & n & H4 & H5).
      cbn [Direct.resp_url items clock trace] in *.
      split_and!; try done. exists (S n). split; [lia|].
      rewrite H5. cbn [replicate mjoin]. by rewrite <- !app_assoc.
    + rewrite direct_handle_rate_limit_pass by done. intros [= <- <-].
      split_and!; try done. exists 0%nat. simpl.
      by rewrite Nat.add_0_r, app_nil_r.
Qed.


(** X3: when [handle_rate_limit] returns, the response it returns is not
    a 429 and is for the URL of the response it was given; the snapshot is
    as it was, and all that happened is a number of rounds of waiting 10 s
    and asking for that URL again. *)
Theorem handle_rate_limit_returns
    (net : Direct.network) (fuel : nat) (r r' : Direct.response) (st st' : state) :
  Direct.handle_rate_limit net fuel r st = Ok r' st' →
  Direct.status_code r' ≠ 429 ∧
  Direct.resp_url r' = Direct.resp_url r ∧
  items st' = items st ∧
  ∃ n, clock st' = (clock st + n)%nat ∧
       trace st' = trace st ++
                   mjoin (replicate n [Sleep 10000; Request (Direct.resp_url r)]).
Proof. apply direct_handle_rate_limit_inv. Qed.

Lemma handle_rate_limit_returns_witness :
  Direct.status_code (Direct.Response (ItemsUrl 1) 200 (Scenarios.hat_body (ItemsUrl 1)))
    ≠ 429.
Proof.
  apply (handle_rate_limit_returns Scenarios.hat_direct 1
           (Direct.Response (ItemsUrl 1) 429 NotJson)
           (Direct.Response (ItemsUrl 1) 200 (Scenarios.hat_body (ItemsUrl 1)))
           init
           (State ∅ 1 [Sleep 10000; Request (ItemsUrl 1)])).
  reflexivity.
Defined.

(** X4: given a 429 for a URL, if the next [n] answers for it are 429 too
    and the one after is not, [handle_rate_limit] returns that answer
    after [n + 1] rounds of waiting 10 s and asking again. *)
Theorem handle_rate_limit_waits
    (net : Direct.network) (n fuel : nat) (r : Direct.response) (st : state) :
  Direct.status_code r = 429 →
  (∀ k, (k < n)%nat → (net (clock st + k)%nat (Direct.resp_url r)).1 = 429) →
  (net (clock st + n)%nat (Direct.resp_url r)).1 ≠ 429 →
  Direct.handle_rate_limit net (S n + fuel) r st =
  Ok (Direct.Response (Direct.resp_url r)
        (net (clock st + n)%nat (Direct.resp_url r)).1
        (net (clock st + n)%nat (Direct.resp_url r)).2)
     (State (items st) (clock st + S n)
        (trace st ++
         mjoin (replicate (S n) [Sleep 10000; Request (Direct.resp_url r)]))).
Proof.
  revert r st. induction n as [|n IH]; intros r st Hr Hlim Hok.
  - cbn [Nat.add]. rewrite direct_handle_rate_limit_unfold by done.
    rewrite Nat.add_0_r in *. rewrite direct_handle_rate_limit_pass by done.
    f_equal. f_equal. lia.
  - change (S (S n) + fuel)%nat with (S (S n + fuel)).
    rewrite direct_handle_rate_limit_unfold by done.
    rewrite IH; cbn [Direct.resp_url Direct.status_code clock items trace].
    + replace (S (clock st) + n)%nat with (clock st + S n)%nat by lia.
      f_equal. f_equal; [lia|].
      cbn [replicate mjoin]. by rewrite <- !app_assoc.
    + specialize (Hlim 0%nat ltac:(lia)). by rewrite Nat.add_0_r in Hlim.
    + intros k Hk. specialize (Hlim (S k) ltac:(lia)).
      by replace (S (clock st) + k)%nat with (clock st + S k)%nat by lia.
    + by replace (S (clock st) + n)%nat with (clock st + S n)%nat by lia.
Qed.

Lemma handle_rate_limit_waits_witness :
  Direct.handle_rate_limit Cases.limited_thrice (S 2 + 0)
    (Direct.Response (ItemsUrl 1) 429 NotJson)
    (State ∅ 1 [Request (ItemsUrl 1)]) =
  Ok (Direct.Response (ItemsUrl 1) 200 (Scenarios.hat_body (ItemsUrl 1)))
     (State ∅ 4 [Request (ItemsUrl 1);
                 Sleep 10000; Request (ItemsUrl 1);
                 Sleep 10000; Request (ItemsUrl 1);
                 Sleep 10000; Request (ItemsUrl 1)]).
Proof.
  apply (handle_rate_limit_waits Cases.limited_thrice 2 0
           (Direct.Response (ItemsUrl 1) 429 NotJson)
           (State ∅ 1 [Request (ItemsUrl 1)])).
  - reflexivity.
  - intros k Hk. cbn [clock Direct.resp_url]. unfold Cases.limited_thrice.
    assert ((1 + k <? 3)%nat = true) as -> by (apply Nat.ltb_lt; lia).
    reflexivity.
  - discriminate.
Defined.

(** X5: while every answer is a 429, direct mode never gets anywhere:
    [handle_rate_limit], the owners loop and the items loop use up any
    amount of fuel without returning or raising; nothing bounds the
    retries. *)
Theorem permanent_rate_limit_never_returns (net : Direct.network) :
  (∀ n u, (net n u).1 = 429) →
  (∀ fuel r st, Direct.status_code r = 429 →
                Direct.handle_rate_limit net fuel r st = OutOfFuel)
  ∧ (∀ fuel i st, Direct.process_owners net fuel i st = OutOfFuel)
  ∧ (∀ fuel st, Direct.process_all_items net fuel st = OutOfFuel).
Proof.
  intros Hnet.
  assert (∀ fuel r st, Direct.status_code r = 429 →
                       Direct.handle_rate_limit net fuel r st = OutOfFuel) as Hh.
  { induction fuel as [|fuel IH]; intros r st Hr.
    - simpl. by rewrite decide_True.
    - rewrite direct_handle_rate_limit_unfold by done. apply IH. apply Hnet. }
  split_and!; [done| |].
  - intros [|fuel] i st; [done|]. unfold Direct.process_owners.
    rewrite while_true_unfold.
    unfold Direct.owners_pass, Direct.fetch_owners, Direct.get, bind.
    rewrite Hh; [done|]. apply Hnet.
  - intros [|fuel] st; [done|]. unfold Direct.process_all_items.
    rewrite while_true_unfold.
    unfold Direct.items_pass, Direct.fetch_items, Direct.get, bind.
    rewrite Hh; [done|]. apply Hnet.
Qed.

Lemma permanent_rate_limit_never_returns_witness :
  Direct.process_all_items Cases.always_limited 50 init = OutOfFuel.
Proof.
  destruct (permanent_rate_limit_never_returns Cases.always_limited)
    as (_ & _ & H).
  - intros n u. reflexivity.
  - apply H.
Defined.


(** ** The proxy in bypass mode *)

Section bypass_fetch_more.

Variable net : Bypass.network.

Lemma bypass_fetch_after_failures u n j t st :
  (j < n)%nat →
  (∀ k, (k < j)%nat → Bypass.solution_text (net (clock st + k)%nat u) = None) →
  Bypass.solution_text (net (clock st + j)%nat u) = Some t →
  Bypass.fetch_attempts net u n st =
  Ok (Some t)
     (State (items st) (clock st + S j)
        (trace st ++ mjoin (replicate j [Request u; Sleep Bypass.RETRY_DELAY])
                  ++ [Request u])).
Proof.
  revert n st. induction j as [|j IH]; intros n st Hn Hfail Hgood.
  - destruct n as [|n]; [lia|]. rewrite Nat.add_0_r in Hgood.
    rewrite (bypass_fetch_first _ _ _ t) by done. simpl.
    f_equal. f_equal. lia.
  - destruct n as [|n]; [lia|]. cbn [Bypass.fetch_attempts].
    unfold bind at 1, Bypass.post.
    specialize (Hfail 0%nat ltac:(lia)) as H0. rewrite Nat.add_0_r in H0.
    rewrite H0. unfold bind, sleep. rewrite (IH n); cbn [log items clock trace].
    + f_equal. f_equal; [lia|]. cbn [replicate]. simpl.
      by rewrite <- !app_assoc.
    + lia.
    + intros k Hk. specialize (Hfail (S k) ltac:(lia)).
      by replace (S (clock st) + k)%nat with (clock st + S k)%nat by lia.
    + by replace (S (clock st) + j)%nat with (clock st + S j)%nat by lia.
Qed.

End bypass_fetch_more.

(** X6: in bypass mode a fetch returns the text of the first envelope
    that is well formed, provided it comes among the first 5 answers for
    an items page or the first 7 for an owners page; before it, every
    malformed answer costs one request and one delay of 10 s. *)
Theorem bypass_fetch_first_good
    (net : Bypass.network) (j : nat) (t : text) (st : state) :
  (∀ page,
      (j < 5)%nat →
      (∀ k, (k < j)%nat →
            Bypass.solution_text (net (clock st + k)%nat (ItemsUrl page)) = None) →
      Bypass.solution_text (net (clock st + j)%nat (ItemsUrl page)) = Some t →
      Bypass.fetch_items net page st =
      Ok (Some t)
         (State (items st) (clock st + S j)
            (trace st ++ mjoin (replicate j [Request (ItemsUrl page); Sleep 10000])
                      ++ [Request (ItemsUrl page)])))
  ∧ (∀ i page,
      (j < 7)%nat →
      (∀ k, (k < j)%nat →
            Bypass.solution_text (net (clock st + k)%nat (OwnersUrl i page)) = None) →
      Bypass.solution_text (net (clock st + j)%nat (OwnersUrl i page)) = Some t →
      Bypass.fetch_owners net i page st =
      Ok (Some t)
         (State (items st) (clock st + S j)
            (trace st ++ mjoin (replicate j [Request (OwnersUrl i page); Sleep 10000])
                      ++ [Request (OwnersUrl i page)]))).
Proof.
  split.
  - intros page Hj Hfail Hgood. by apply bypass_fetch_after_failures.
  - intros i page Hj Hfail Hgood. by apply bypass_fetch_after_failures.
Qed.

Lemma bypass_fetch_first_good_witness :
  Bypass.fetch_items Cases.proxy_shaky 1 init =
  Ok (Some (Scenarios.hat_body (ItemsUrl 1)))
     (State ∅ 3 [Request (ItemsUrl 1); Sleep 10000;
                 Request (ItemsUrl 1); Sleep 10000; Request (ItemsUrl 1)]).
Proof.
  destruct (bypass_fetch_first_good Cases.proxy_shaky 2
              (Scenarios.hat_body (ItemsUrl 1)) init) as [H _].
  apply (H 1).
  - lia.
  - intros [|[|k]] Hk; [reflexivity|reflexivity|lia].
  - reflexivity.
Defined.



(** ** What the walkers keep true *)

Section triples.

Import Tally.

Lemma triple_ret {A} (P : state → Prop) (a : A) (Q : A → state → Prop) :
  (∀ st, P st → Q a st) → triple P (ret a) Q.
Proof. intros H st HP. by apply H. Qed.

Lemma triple_bind {A B} (P : state → Prop) (m : M A) (Q : A → state → Prop)
    (k : A → M B) (R : B → state → Prop) :
  triple P m Q → (∀ a, triple (Q a) (k a) R) → triple P (bind m k) R.
Proof.
  intros Hm Hk st HP. unfold bind. specialize (Hm st HP).
  destruct (m st) as [a st'| |]; [|done..]. by apply Hk.
Qed.

Lemma triple_weaken {A} (P P' : state → Prop) (m : M A) (Q Q' : A → state → Prop) :
  triple P' m Q' → (∀ st, P st → P' st) → (∀ a st, Q' a st → Q a st) →
  triple P m Q.
Proof.
  intros Hm HP HQ st Hst. specialize (Hm st (HP st Hst)).
  destruct (m st); [by apply HQ|done..].
Qed.

Lemma triple_for_each {A} (P : state → Prop) (l : list A) (body : A → M unit) :
  (∀ x, x ∈ l → triple P (body x) (λ _, P)) →
  triple P (for_each l body) (λ _, P).
Proof.
  induction l as [|x l IH]; intros Hbody; simpl.
  - by apply triple_ret.
  - eapply triple_bind.
    + apply Hbody, list_elem_of_here.
    + intros []. apply IH. intros y Hy. apply Hbody. by apply list_elem_of_further.
Qed.

(** A loop whose passes keep [P] and hand on page numbers in [G] keeps
    [P]. *)
Lemma triple_while_true (P : state → Prop) (G : Z → Prop) body fuel page :
  (∀ f p, G p →
     triple P (body f p)
       (λ c st, P st ∧ match c with Continue p' => G p' | Break => True end)) →
  G page → triple P (while_true fuel body page) (λ _, P).
Proof.
  intros Hbody. revert page. induction fuel as [|fuel IH]; intros page HG.
  - by intros st _.
  - cbn [while_true]. eapply triple_bind; [by apply Hbody|].
    intros [|p']; simpl.
    + intros st [HP _]. done.
    + intros st [HP HG']. by apply IH.
Qed.

End triples.

Section walker_invariants.

Import Tally.

Variable I : state → Prop.
Variable allowed : url → Prop.

Hypothesis I_sleep : ∀ st ms, I st → I (log (Sleep ms) st).
Hypothesis I_request : ∀ st u,
  allowed u → I st →
  I (State (items st) (S (clock st)) (trace st ++ [Request u])).

Lemma triple_sleep ms : triple I (sleep ms) (λ _, I).
Proof. intros st HI. by apply I_sleep. Qed.

Lemma triple_get net u :
  allowed u → triple I (Direct.get net u) (λ r st, I st ∧ Direct.resp_url r = u).
Proof. intros Hu st HI. simpl. split; [by apply I_request|done]. Qed.

Lemma triple_handle_rate_limit net fuel r :
  allowed (Direct.resp_url r) →
  triple I (Direct.handle_rate_limit net fuel r) (λ _, I).
Proof.
  revert r. induction fuel as [|fuel IH]; intros r Hr; simpl.
  - case_decide; [done|]. by apply triple_ret.
  - case_decide; [|by apply triple_ret].
    eapply triple_bind; [apply triple_sleep|]. intros [].
    eapply triple_bind; [by apply triple_get|]. intros r'.
    intros st [HI Hu]. apply IH; [by rewrite Hu|done].
Qed.

Lemma triple_fetch_attempts net u n :
  allowed u → triple I (Bypass.fetch_attempts net u n) (λ _, I).
Proof.
  intros Hu. induction n as [|n IH]; simpl.
  - by apply triple_ret.
  - eapply (triple_bind _ _ (λ _, I)).
    + intros st HI. simpl. by apply I_request.
    + intros env. destruct (Bypass.solution_text env); [by apply triple_ret|].
      eapply triple_bind; [apply triple_sleep|]. by intros [].
Qed.

(** The owners loop of an item that is registered. *)
Section owners.

Variable i : item_id.

Hypothesis I_merge : ∀ st it invs,
  I st → items st !! i = Some it →
  I (State (<[i := Item (item_name it) (merge_inventories (owners it) invs)]>
              (items st))
           (clock st) (trace st)).

Hypothesis allowed_owners : ∀ p, 1 ≤ p → allowed (OwnersUrl i p).

Let J (st : state) : Prop := I st ∧ is_Some (items st !! i).

Lemma triple_owners_step page r :
  1 ≤ page →
  triple J (Bypass.owners_step i page r)
    (λ c st, J st ∧ match c with Continue p' => 1 ≤ p' | Break => True end).
Proof.
  intros Hpage st [HI [it Hit]]. unfold Bypass.owners_step.
  destruct r as [t|]; [|by repeat split; eauto].
  destruct (loads t) as [o|].
  - destruct (default [] (inventories o)) as [|inv invs]; [by repeat split; eauto|].
    unfold bind, merge_into. rewrite Hit. case_decide; simpl.
    + split; [|done]. split; [by apply (I_merge st it (inv :: invs))|].
      cbn [items]. rewrite lookup_insert_eq. eauto.
    + split; [|lia]. split.
      * apply (I_sleep (State _ _ _)). by apply (I_merge st it (inv :: invs)).
      * cbn [log items]. rewrite lookup_insert_eq. eauto.
  - simpl. split; [|done]. split; [by apply I_sleep|]. simpl. eauto.
Qed.

Lemma triple_direct_process_owners net fuel :
  triple J (Direct.process_owners net fuel i) (λ _, J).
Proof.
  unfold Direct.process_owners.
  apply (triple_while_true J (λ p, 1 ≤ p)); [|lia].
  intros f p Hp. unfold Direct.owners_pass.
  eapply (triple_bind _ _ (λ r st, J st ∧ Direct.resp_url r = OwnersUrl i p)).
  { intros st [HI Hreg]. simpl. split; [|done]. split; [|done].
    apply I_request; [by apply allowed_owners|done]. }
  intros r. eapply (triple_bind _ _ (λ _, J)).
  { intros st [[HI Hreg] Hu].
    pose proof (triple_handle_rate_limit net f r) as H.
    rewrite Hu in H. specialize (H (allowed_owners p Hp) st HI).
    destruct (Direct.handle_rate_limit net f r st) as [r' st'| |] eqn:E; [|done..].
    split; [done|].
    apply direct_handle_rate_limit_inv in E as (_ & _ & -> & _). done. }
  intros [u c t]. exact (triple_owners_step p (Some t) Hp).
Qed.

Lemma triple_bypass_process_owners net fuel :
  triple J (Bypass.process_owners net fuel i) (λ _, J).
Proof.
  unfold Bypass.process_owners.
  apply (triple_while_true J (λ p, 1 ≤ p)); [|lia].
  intros f p Hp. unfold Bypass.owners_pass.
  eapply (triple_bind _ _ (λ _, J)).
  { intros st [HI Hreg].
    pose proof (triple_fetch_attempts net (OwnersUrl i p) 7
                  (allowed_owners p Hp) st HI) as H.
    destruct (bypass_fetch_bounded net (OwnersUrl i p) 7 st)
      as (r & st' & k & Hrun & Hi & _).
    unfold Bypass.fetch_owners. rewrite Hrun in *. split; [done|].
    by rewrite Hi. }
  intros r. by apply triple_owners_step.
Qed.

End owners.

End walker_invariants.

Section items_invariants.

Import Tally.

Variable I : state → Prop.

Hypothesis I_sleep : ∀ st ms, I st → I (log (Sleep ms) st).
Hypothesis I_request : ∀ st u,
  1 ≤ url_page u → I st →
  I (State (items st) (S (clock st)) (trace st ++ [Request u])).
Hypothesis I_merge : ∀ i st it invs,
  I st → items st !! i = Some it →
  I (State (<[i := Item (item_name it) (merge_inventories (owners it) invs)]>
              (items st))
           (clock st) (trace st)).
Hypothesis I_register : ∀ e st,
  I st →
  I (State (<[id e := Item (default "" (entry_name e)) []]> (items st))
           (clock st) (trace st)).

Lemma triple_direct_process_entry net fuel e :
  triple I (Direct.process_entry net fuel e) (λ _, I).
Proof.
  unfold Direct.process_entry.
  eapply (triple_bind _ _ (λ _ st, I st ∧ is_Some (items st !! id e))).
  - intros st HI. simpl. split; [by apply I_register|].
    rewrite lookup_insert_eq. eauto.
  - intros []. eapply triple_weaken.
    + apply (triple_direct_process_owners I (λ u, 1 ≤ url_page u)
               I_sleep I_request (id e) (I_merge (id e))). by intros p Hp.
    + done.
    + by intros [] st [HI _].
Qed.

Lemma triple_bypass_process_entry net fuel e :
  triple I (Bypass.process_entry net fuel e) (λ _, I).
Proof.
  unfold Bypass.process_entry.
  eapply (triple_bind _ _ (λ _ st, I st ∧ is_Some (items st !! id e))).
  - intros st HI. simpl. split; [by apply I_register|].
    rewrite lookup_insert_eq. eauto.
  - intros []. eapply triple_weaken.
    + apply (triple_bypass_process_owners I (λ u, 1 ≤ url_page u)
               I_sleep I_request (id e) (I_merge (id e))). by intros p Hp.
    + done.
    + by intros [] st [HI _].
Qed.

Lemma triple_direct_process_all_items net fuel :
  triple I (Direct.process_all_items net fuel) (λ _, I).
Proof.
  unfold Direct.process_all_items.
  apply (triple_while_true I (λ p, 1 ≤ p)); [|lia].
  intros f p Hp. unfold Direct.items_pass.
  eapply (triple_bind _ _ (λ r st, I st ∧ Direct.resp_url r = ItemsUrl p)).
  { apply (triple_get I (λ u, 1 ≤ url_page u) I_request). done. }
  intros r. eapply (triple_bind _ _ (λ _, I)).
  { intros st [HI Hu].
    apply (triple_handle_rate_limit I (λ u, 1 ≤ url_page u) I_sleep I_request);
      [by rewrite Hu|done]. }
  intros r'. unfold Direct.items_step. destruct (loads (Direct.body r')) as [o|].
  - eapply (triple_bind _ _ (λ _, I)).
    + apply triple_for_each. intros e _. apply triple_direct_process_entry.
    + intros []. case_decide.
      * by apply triple_ret.
      * eapply triple_bind; [apply (triple_sleep I I_sleep)|].
        intros []. apply triple_ret. intros st HI. split; [done|lia].
  - eapply triple_bind; [apply (triple_sleep I I_sleep)|].
    intros []. by apply triple_ret.
Qed.

Lemma triple_bypass_process_all_items net fuel :
  triple I (Bypass.process_all_items net fuel) (λ _, I).
Proof.
  unfold Bypass.process_all_items.
  apply (triple_while_true I (λ p, 1 ≤ p)); [|lia].
  intros f p Hp. unfold Bypass.items_pass.
  eapply (triple_bind _ _ (λ _, I)).
  { apply (triple_fetch_attempts I (λ u, 1 ≤ url_page u) I_sleep I_request).
    done. }
  intros r. unfold Bypass.items_step. destruct r as [t|].
  - destruct (loads t) as [o|].
    + destruct (data o) as [l|].
      * eapply (triple_bind _ _ (λ _, I)).
        -- apply triple_for_each. intros e _. apply triple_bypass_process_entry.
        -- intros []. case_decide.
           ++ by apply triple_ret.
           ++ eapply triple_bind; [apply (triple_sleep I I_sleep)|].
              intros []. apply triple_ret. intros st HI. split; [done|lia].
      * apply triple_ret. intros st HI. split; [done|lia].
    + eapply triple_bind; [apply (triple_sleep I I_sleep)|].
      intros []. by apply triple_ret.
  - apply triple_ret. intros st HI. split; [done|lia].
Qed.

End items_invariants.

Section snapshot_invariants.

Import Tally.

Lemma well_formed_insert (m : gmap item_id item) i it :
  well_formed m → well_formed_owners (owners it) → well_formed (<[i := it]> m).
Proof.
  intros Hm Hit j it'. destruct (decide (i = j)) as [->|Hne].
  - rewrite lookup_insert_eq. by intros [= <-].
  - rewrite lookup_insert_ne by done. apply Hm.
Qed.

Lemma well_formed_owners_nil : well_formed_owners [].
Proof. split; [apply NoDup_nil_2|constructor]. Qed.

Lemma merge_inventories_prefix owners invs :
  names owners `prefix_of` names (merge_inventories owners invs).
Proof.
  unfold merge_inventories. revert owners.
  induction invs as [|inv invs IH]; intros owners; simpl; [done|].
  etrans; [apply names_merge_owner_prefix|apply IH].
Qed.

Lemma total_merge_inventories owners invs :
  total (merge_inventories owners invs) = total owners + Z.of_nat (length invs).
Proof.
  unfold merge_inventories. revert owners.
  induction invs as [|inv invs IH]; intros owners; simpl; [lia|].
  rewrite IH, total_merge. lia.
Qed.

End snapshot_invariants.

(** X8: [process_owners] called for an id that the snapshot does not hold
    raises [KeyError] at the first page that decodes with inventory
    records on it, after the one request and before anything is stored. *)
Theorem unregistered_item_raises
    (dnet : Direct.network) (bnet : Bypass.network) (fuel : nat)
    (i : item_id) (st : state) (o : json_obj)
    (inv : inventory) (invs : list inventory) :
  items st !! i = None →
  inventories o = Some (inv :: invs) →
  ((dnet (clock st) (OwnersUrl i 1)).1 ≠ 429 →
   (dnet (clock st) (OwnersUrl i 1)).2 = JsonText o →
   Direct.process_owners dnet (S fuel) i st =
   Raise KeyError
     (State (items st) (S (clock st)) (trace st ++ [Request (OwnersUrl i 1)])))
  ∧ (Bypass.solution_text (bnet (clock st) (OwnersUrl i 1)) = Some (JsonText o) →
     Bypass.process_owners bnet (S fuel) i st =
     Raise KeyError
       (State (items st) (S (clock st)) (trace st ++ [Request (OwnersUrl i 1)]))).
Proof.
  intros Hnone Hinv. split.
  - intros Hc Hb. unfold Direct.process_owners. rewrite while_true_unfold.
    rewrite direct_owners_pass_first by done. rewrite Hb.
    unfold Bypass.owners_step. cbn [loads]. rewrite Hinv.
    cbn [default from_option Datatypes.id]. unfold bind, merge_into.
    cbn [items]. by rewrite Hnone.
  - intros He. unfold Bypass.process_owners. rewrite while_true_unfold.
    rewrite (bypass_owners_pass_first _ _ _ _ (JsonText o)) by done.
    unfold Bypass.owners_step. cbn [loads]. rewrite Hinv.
    cbn [default from_option Datatypes.id]. unfold bind, merge_into.
    cbn [items]. by rewrite Hnone.
Qed.

Lemma unregistered_item_raises_witness :
  Bypass.process_owners Scenarios.hat_bypass 1 (IdInt 10) init =
  Raise KeyError (State ∅ 1 [Request (OwnersUrl (IdInt 10) 1)]).
Proof.
  destruct (unregistered_item_raises Scenarios.hat_direct Scenarios.hat_bypass 0
              (IdInt 10) init (Scenarios.page_of_owners ["x"; "x"] (Some 1))
              (inv_of "x") [inv_of "x"]) as [_ H]; [reflexivity|reflexivity|].
  by apply H.
Defined.

Lemma process_owners_frame_aux
    (dnet : Direct.network) (bnet : Bypass.network) (fuel : nat)
    (i : item_id) (m : gmap item_id item) (it : item) :
  m !! i = Some it →
  let Q := λ (_ : unit) (st' : state),
    (∀ j, j ≠ i → items st' !! j = m !! j) ∧
    ∃ it', items st' !! i = Some it' ∧ item_name it' = item_name it ∧
           names (owners it) `prefix_of` names (owners it') ∧
           total (owners it) ≤ total (owners it') in
  Tally.triple (λ st, items st = m) (Direct.process_owners dnet fuel i) Q ∧
  Tally.triple (λ st, items st = m) (Bypass.process_owners bnet fuel i) Q.
Proof.
  intros Hit Q.
  set (I := λ st : state, Q tt st).
  assert (∀ st ms, I st → I (log (Sleep ms) st)) as I_sleep by done.
  assert (∀ st u, True → I st →
            I (State (items st) (S (clock st)) (trace st ++ [Request u])))
    as I_request by done.
  assert (∀ st it0 invs, I st → items st !! i = Some it0 →
            I (State (<[i := Item (item_name it0)
                               (merge_inventories (owners it0) invs)]> (items st))
                     (clock st) (trace st))) as I_merge.
  { intros st it0 invs [Hothers (it' & Hit' & Hname & Hpre & Htot)] Hit0.
    rewrite Hit' in Hit0. injection Hit0 as <-. split; cbn [items].
    - intros j Hj. rewrite lookup_insert_ne by done. by apply Hothers.
    - eexists. rewrite lookup_insert_eq. split; [done|]. cbn [item_name owners].
      split_and!; [done| |].
      + etrans; [done|apply merge_inventories_prefix].
      + rewrite total_merge_inventories. lia. }
  assert (∀ st, items st = m → I st ∧ is_Some (items st !! i)) as Hstart.
  { intros st Hst. unfold I, Q. rewrite Hst. split; [|by exists it].
    split; [done|]. exists it. split_and!; [done|done|done|lia]. }
  split.
  - eapply triple_weaken.
    + apply (triple_direct_process_owners I (λ _, True) I_sleep I_request i I_merge).
      done.
    + done.
    + by intros [] st [HI _].
  - eapply triple_weaken.
    + apply (triple_bypass_process_owners I (λ _, True) I_sleep I_request i I_merge).
      done.
    + done.
    + by intros [] st [HI _].
Qed.

(** X9: when the owners loop of a registered item returns, in either
    mode, it has changed nothing in the snapshot but that item's owner
    list: every other entry is as before, and the item keeps its name,
    the owners it had at the front of its list, and at least its
    total. *)
Theorem process_owners_frame
    (dnet : Direct.network) (bnet : Bypass.network) (fuel : nat)
    (i : item_id) (it : item) (st st' : state) :
  items st !! i = Some it →
  Direct.process_owners dnet fuel i st = Ok tt st' ∨
  Bypass.process_owners bnet fuel i st = Ok tt st' →
  (∀ j, j ≠ i → items st' !! j = items st !! j) ∧
  ∃ it', items st' !! i = Some it' ∧ item_name it' = item_name it ∧
         names (owners it) `prefix_of` names (owners it') ∧
         total (owners it) ≤ total (owners it').
Proof.
  intros Hit Hrun.
  destruct (process_owners_frame_aux dnet bnet fuel i (items st) it Hit)
    as [Hd Hb].
  destruct Hrun as [Hrun|Hrun].
  - specialize (Hd st eq_refl). by rewrite Hrun in Hd.
  - specialize (Hb st eq_refl). by rewrite Hrun in Hb.
Qed.

Lemma process_owners_frame_witness :
  let m : gmap item_id item :=
    {[ IdInt 10 := Item "Hat" [Owner "w" 1]; IdInt 11 := Item "Cap" [Owner "z" 4] ]} in
  ∃ st', Bypass.process_owners Scenarios.hat_bypass 3 (IdInt 10) (State m 0 [])
           = Ok tt st' ∧
         items st' !! IdInt 11 = Some (Item "Cap" [Owner "z" 4]) ∧
         ∃ it', items st' !! IdInt 10 = Some it' ∧ item_name it' = "Hat" ∧
                names [Owner "w" 1] `prefix_of` names (owners it') ∧
                total [Owner "w" 1] ≤ total (owners it').
Proof.
  intros m.
  exists (State (<[IdInt 10 := Item "Hat" [Owner "w" 1; Owner "x" 2]]> m) 1
                [Request (OwnersUrl (IdInt 10) 1)]).
  split; [vm_compute; reflexivity|].
  destruct (process_owners_frame Scenarios.hat_direct Scenarios.hat_bypass 3
              (IdInt 10) (Item "Hat" [Owner "w" 1]) (State m 0 [])
              (State (<[IdInt 10 := Item "Hat" [Owner "w" 1; Owner "x" 2]]> m) 1
                     [Request (OwnersUrl (IdInt 10) 1)]))
    as [Hothers Hitem].
  - vm_compute. reflexivity.
  - right. vm_compute. reflexivity.
  - split; [|exact Hitem]. rewrite (Hothers (IdInt 11)) by discriminate.
    vm_compute. reflexivity.
Defined.

(** X10: the owners loop of a registered item, in either mode, adds to
    the trace nothing but waits and requests for pages of that item's
    owners, numbered from 1: it asks for no items page and for no other
    item. *)
Theorem process_owners_requests
    (dnet : Direct.network) (bnet : Bypass.network) (fuel : nat)
    (i : item_id) (st0 : state) :
  is_Some (items st0 !! i) →
  let Q := λ (_ : unit) (st' : state),
    ∃ tr, Tally.added tr st0 st' ∧ Forall (Tally.owners_event i) tr in
  Tally.triple (λ st, st = st0) (Direct.process_owners dnet fuel i) Q ∧
  Tally.triple (λ st, st = st0) (Bypass.process_owners bnet fuel i) Q.
Proof.
  intros Hreg Q.
  set (I := λ st : state, Q tt st).
  assert (∀ st ms, I st → I (log (Sleep ms) st)) as I_sleep.
  { intros st ms (tr & Htr & Hall). exists (tr ++ [Sleep ms]).
    unfold Tally.added in *. cbn [log trace]. rewrite Htr, <- app_assoc.
    split; [done|]. apply Forall_app. split; [done|]. by repeat constructor. }
  assert (∀ st u, Tally.owners_event i (Request u) → I st →
            I (State (items st) (S (clock st)) (trace st ++ [Request u])))
    as I_request.
  { intros st u Hu (tr & Htr & Hall). exists (tr ++ [Request u]).
    unfold Tally.added in *. cbn [trace]. rewrite Htr, <- app_assoc.
    split; [done|]. apply Forall_app. split; [done|]. by repeat constructor. }
  assert (∀ st it0 invs, I st → items st !! i = Some it0 →
            I (State (<[i := Item (item_name it0)
                               (merge_inventories (owners it0) invs)]> (items st))
                     (clock st) (trace st))) as I_merge by done.
  assert (∀ st, st = st0 → I st ∧ is_Some (items st !! i)) as Hstart.
  { intros st ->. split; [|done]. exists []. unfold Tally.added.
    by rewrite app_nil_r. }
  split.
  - eapply triple_weaken.
    + apply (triple_direct_process_owners I (λ u, Tally.owners_event i (Request u))
               I_sleep I_request i I_merge). by intros p Hp.
    + done.
    + by intros [] st [HI _].
  - eapply triple_weaken.
    + apply (triple_bypass_process_owners I (λ u, Tally.owners_event i (Request u))
               I_sleep I_request i I_merge). by intros p Hp.
    + done.
    + by intros [] st [HI _].
Qed.

Lemma process_owners_requests_witness :
  Tally.triple (λ st, st = State {[ IdInt 10 := Item "Hat" [] ]} 0 [])
    (Direct.process_owners Scenarios.hat_direct 3 (IdInt 10))
    (λ _ st', ∃ tr, Tally.added tr (State {[ IdInt 10 := Item "Hat" [] ]} 0 []) st' ∧
                    Forall (Tally.owners_event (IdInt 10)) tr).
Proof.
  apply (process_owners_requests Scenarios.hat_direct Scenarios.hat_bypass 3
           (IdInt 10) (State {[ IdInt 10 := Item "Hat" [] ]} 0 [])).
  exists (Item "Hat" []). vm_compute. reflexivity.
Defined.

Lemma process_all_items_wf_aux
    (dnet : Direct.network) (bnet : Bypass.network) (fuel : nat)
    (m : gmap item_id item) :
  Tally.well_formed m →
  let Q := λ (_ : unit) (st' : state),
    Tally.well_formed (items st') ∧
    ∀ j, is_Some (m !! j) → is_Some (items st' !! j) in
  Tally.triple (λ st, items st = m) (Direct.process_all_items dnet fuel) Q ∧
  Tally.triple (λ st, items st = m) (Bypass.process_all_items bnet fuel) Q.
Proof.
  intros Hm Q.
  set (I := λ st : state, Q tt st).
  assert (∀ st ms, I st → I (log (Sleep ms) st)) as I_sleep by done.
  assert (∀ st u, 1 ≤ Tally.url_page u → I st →
            I (State (items st) (S (clock st)) (trace st ++ [Request u])))
    as I_request by done.
  assert (∀ i st it0 invs, I st → items st !! i = Some it0 →
            I (State (<[i := Item (item_name it0)
                               (merge_inventories (owners it0) invs)]> (items st))
                     (clock st) (trace st))) as I_merge.
  { intros i st it0 invs [Hwf Hdom] Hit0. split; cbn [items].
    - apply well_formed_insert; [done|]. cbn [owners].
      by apply merge_inventories_well_formed, (Hwf i).
    - intros j Hj. destruct (decide (i = j)) as [->|Hne].
      + rewrite lookup_insert_eq. eauto.
      + rewrite lookup_insert_ne by done. by apply Hdom. }
  assert (∀ e st, I st →
            I (State (<[id e := Item (default "" (entry_name e)) []]> (items st))
                     (clock st) (trace st))) as I_register.
  { intros e st [Hwf Hdom]. split; cbn [items].
    - apply well_formed_insert; [done|]. apply well_formed_owners_nil.
    - intros j Hj. destruct (decide (id e = j)) as [->|Hne].
      + rewrite lookup_insert_eq. eauto.
      + rewrite lookup_insert_ne by done. by apply Hdom. }
  assert (∀ st, items st = m → I st) as Hstart.
  { intros st Hst. unfold I, Q. by rewrite Hst. }
  split.
  - eapply triple_weaken.
    + apply (triple_direct_process_all_items I I_sleep I_request I_merge I_register).
    + done.
    + by intros [] st HI.
  - eapply triple_weaken.
    + apply (triple_bypass_process_all_items I I_sleep I_request I_merge I_register).
    + done.
    + by intros [] st HI.
Qed.


(** X11: when a whole walk returns, in either mode, from a snapshot in
    which no owner list repeats a name or holds a count below 1, it
    leaves such a snapshot, and every id that was in the snapshot is
    still in it. *)
Theorem process_all_items_keeps_well_formed
    (dnet : Direct.network) (bnet : Bypass.network) (fuel : nat)
    (st st' : state) :
  Tally.well_formed (items st) →
  Direct.process_all_items dnet fuel st = Ok tt st' ∨
  Bypass.process_all_items bnet fuel st = Ok tt st' →
  Tally.well_formed (items st') ∧
  ∀ j, is_Some (items st !! j) → is_Some (items st' !! j).
Proof.
  intros Hwf Hrun.
  destruct (process_all_items_wf_aux dnet bnet fuel (items st) Hwf) as [Hd Hb].
  destruct Hrun as [Hrun|Hrun].
  - specialize (Hd st eq_refl). by rewrite Hrun in Hd.
  - specialize (Hb st eq_refl). by rewrite Hrun in Hb.
Qed.

Lemma process_all_items_keeps_well_formed_witness :
  let m : gmap item_id item := {[ IdInt 5 := Item "Old" [Owner "z" 3] ]} in
  ∃ st', Direct.process_all_items Scenarios.hat_direct 3 (State m 0 []) = Ok tt st' ∧
         Tally.well_formed (items st') ∧
         is_Some (items st' !! IdInt 5) ∧
         items st' !! IdInt 10 = Some (Item "Hat" [Owner "x" 2]).
Proof.
  intros m.
  exists (State (<[IdInt 10 := Item "Hat" [Owner "x" 2]]> m) 2
                [Request (ItemsUrl 1); Request (OwnersUrl (IdInt 10) 1)]).
  split; [vm_compute; reflexivity|].
  destruct (process_all_items_keeps_well_formed Scenarios.hat_direct
              Scenarios.hat_bypass 3 (State m 0 [])
              (State (<[IdInt 10 := Item "Hat" [Owner "x" 2]]> m) 2
                     [Request (ItemsUrl 1); Request (OwnersUrl (IdInt 10) 1)]))
    as [Hwf Hdom].
  - intros i it. cbn [items]. unfold m.
    destruct (decide (i = IdInt 5)) as [->|Hne].
    + rewrite lookup_singleton_eq. intros [= <-]. split.
      * apply (bool_decide_unpack (NoDup ["z"])). vm_compute. exact I.
      * repeat constructor. simpl. lia.
    + rewrite lookup_singleton_ne by done. discriminate.
  - left. vm_compute. reflexivity.
  - split; [exact Hwf|]. split.
    + apply Hdom. cbn [items]. unfold m. rewrite lookup_singleton_eq. eauto.
    + vm_compute. reflexivity.
Defined.

(** ** Owners spread over several pages *)

Section owners_accumulate.

Variable body : nat → Z → M control.
Variable i : item_id.
Variable pages_list : list (list inventory).

Hypothesis pages_nonempty : Forall (λ l, l ≠ []) pages_list.

Hypothesis body_page : ∀ f p st l,
  1 ≤ p → pages_list !! Z.to_nat (p - 1) = Some l →
  ∃ o, inventories o = Some l ∧
       pages o = Some (Z.of_nat (length pages_list)) ∧
       body f p st =
       Bypass.owners_step i p (Some (JsonText o))
         (State (items st) (S (clock st))
                (trace st ++ [Request (OwnersUrl i p)])).

Lemma owners_loop_accumulates rest :
  ∀ seen fuel st it,
    pages_list = seen ++ rest → rest ≠ [] →
    (length rest ≤ fuel)%nat →
    items st !! i = Some it →
    ∃ st',
      while_true fuel body (Z.of_nat (length seen) + 1) st = Ok tt st' ∧
      items st' =
        <[i := Item (item_name it) (merge_inventories (owners it) (concat rest))]>
          (items st) ∧
      clock st' = (clock st + length rest)%nat ∧
      requests (trace st') =
        requests (trace st) ++
        ((λ p, OwnersUrl i (Z.of_nat p)) <$> seq (S (length seen)) (length rest)).
Proof.
  induction rest as [|l rest IH]; intros seen fuel st it Hsplit Hne Hfuel Hit;
    [done|].
  destruct fuel as [|fuel]; [simpl in Hfuel; lia|].
  rewrite while_true_unfold.
  assert (pages_list !! length seen = Some l) as Hl.
  { rewrite Hsplit. by rewrite list_lookup_middle. }
  destruct (body_page fuel (Z.of_nat (length seen) + 1) st l) as (o & Hinv & Hp & ->).
  { lia. }
  { by replace (Z.to_nat (Z.of_nat (length seen) + 1 - 1)) with (length seen) by lia. }
  assert (l ≠ []) as Hlne.
  { rewrite Forall_forall in pages_nonempty. apply pages_nonempty.
    rewrite Hsplit. apply elem_of_app. right. apply list_elem_of_here. }
  destruct l as [|inv invs]; [done|].
  erewrite bypass_owners_step_merge; [|done|by rewrite Hinv|done].
  cbn zeta. rewrite Hp. cbn [default from_option Datatypes.id].
  assert (length pages_list = (length seen + S (length rest))%nat) as Hlen.
  { rewrite Hsplit, length_app. done. }
  destruct rest as [|l' rest].
  - simpl in Hlen. rewrite decide_True by lia. eexists. split; [done|].
    cbn [items clock trace concat length seq fmap list_fmap].
    rewrite app_nil_r, requests_app. split_and!; [done|lia|].
    simpl. do 3 f_equal. lia.
  - rewrite decide_False by (simpl in Hlen; lia).
    destruct (IH (seen ++ [inv :: invs]) fuel
                (log (Sleep Bypass.PAGE_DELAY)
                   (State (<[i := Item (item_name it)
                                     (merge_inventories (owners it) (inv :: invs))]>
                             (items st))
                          (S (clock st))
                          (trace st ++ [Request (OwnersUrl i (Z.of_nat (length seen) + 1))])))
                (Item (item_name it) (merge_inventories (owners it) (inv :: invs))))
      as (st' & Hrun & Hitems & Hclock & Hreq).
    { by rewrite <- app_assoc. }
    { done. }
    { simpl in *. lia. }
    { cbn [log items]. by rewrite lookup_insert_eq. }
    rewrite length_app in Hrun. cbn [length] in Hrun.
    replace (Z.of_nat (length seen + 1) + 1) with (Z.of_nat (length seen) + 1 + 1)
      in Hrun by lia.
    exists st'. split; [done|]. cbn [log items clock trace item_name owners] in *.
    split_and!.
    + rewrite Hitems, insert_insert_eq. do 2 f_equal.
      change (concat ((inv :: invs) :: l' :: rest))
        with ((inv :: invs) ++ concat (l' :: rest)).
      unfold merge_inventories. by rewrite foldl_app.
    + rewrite Hclock. simpl. lia.
    + rewrite Hreq, !requests_app, length_app.
      change (requests [Sleep Bypass.PAGE_DELAY]) with (@nil url).
      rewrite app_nil_r, <- app_assoc. f_equal.
      cbn [length]. replace (length seen + 1)%nat with (S (length seen)) by lia.
      cbn [requests omap list_omap seq fmap list_fmap app].
      f_equal. f_equal. lia.
Qed.

End owners_accumulate.

(** X12: when the owners of an item come on [k >= 1] pages that all
    decode, carry records and declare [k] pages, the owners loop, in
    either mode, asks for the pages 1 to [k] once each, in order, and
    leaves the item with the records of all the pages merged, page after
    page, into the owner list it had. *)
Theorem owners_pages_accumulate
    (dnet : Direct.network) (bnet : Bypass.network) (i : item_id)
    (pages_list : list (list inventory)) (fuel : nat) (st : state) (it : item) :
  pages_list ≠ [] →
  Forall (λ l, l ≠ []) pages_list →
  (length pages_list ≤ fuel)%nat →
  items st !! i = Some it →
  let st'_ok := λ st' : state,
    items st' =
      <[i := Item (item_name it)
                  (merge_inventories (owners it) (concat pages_list))]> (items st) ∧
    clock st' = (clock st + length pages_list)%nat ∧
    requests (trace st') =
      requests (trace st) ++
      ((λ p, OwnersUrl i (Z.of_nat p)) <$> seq 1 (length pages_list)) in
  ((∀ n p l, 1 ≤ p → pages_list !! Z.to_nat (p - 1) = Some l →
        (dnet n (OwnersUrl i p)).1 ≠ 429 ∧
        ∃ o, (dnet n (OwnersUrl i p)).2 = JsonText o ∧ inventories o = Some l ∧
             pages o = Some (Z.of_nat (length pages_list))) →
   ∃ st', Direct.process_owners dnet fuel i st = Ok tt st' ∧ st'_ok st')
  ∧ ((∀ n p l, 1 ≤ p → pages_list !! Z.to_nat (p - 1) = Some l →
        ∃ o, Bypass.solution_text (bnet n (OwnersUrl i p)) = Some (JsonText o) ∧
             inventories o = Some l ∧
             pages o = Some (Z.of_nat (length pages_list))) →
     ∃ st', Bypass.process_owners bnet fuel i st = Ok tt st' ∧ st'_ok st').
Proof.
  intros Hne Hall Hfuel Hit ok. split.
  - intros Hnet.
    assert (∀ f p s l, 1 ≤ p → pages_list !! Z.to_nat (p - 1) = Some l →
              ∃ o, inventories o = Some l ∧
                   pages o = Some (Z.of_nat (length pages_list)) ∧
                   Direct.owners_pass dnet i f p s =
                   Bypass.owners_step i p (Some (JsonText o))
                     (State (items s) (S (clock s))
                            (trace s ++ [Request (OwnersUrl i p)]))) as Hbody.
    { intros f p s l Hp Hl.
      destruct (Hnet (clock s) p l Hp Hl) as (Hc & o & Hb & Hi & Hpg).
      exists o. split_and!; [done|done|].
      rewrite direct_owners_pass_first by done. by rewrite Hb. }
    destruct (owners_loop_accumulates _ i pages_list Hall Hbody pages_list []
                fuel st it eq_refl Hne Hfuel Hit) as (st' & Hrun & H).
    exists st'. split; [exact Hrun|exact H].
  - intros Hnet.
    assert (∀ f p s l, 1 ≤ p → pages_list !! Z.to_nat (p - 1) = Some l →
              ∃ o, inventories o = Some l ∧
                   pages o = Some (Z.of_nat (length pages_list)) ∧
                   Bypass.owners_pass bnet i f p s =
                   Bypass.owners_step i p (Some (JsonText o))
                     (State (items s) (S (clock s))
                            (trace s ++ [Request (OwnersUrl i p)]))) as Hbody.
    { intros f p s l Hp Hl.
      destruct (Hnet (clock s) p l Hp Hl) as (o & He & Hi & Hpg).
      exists o. split_and!; [done|done|].
      by rewrite (bypass_owners_pass_first _ _ _ _ (JsonText o)). }
    destruct (owners_loop_accumulates _ i pages_list Hall Hbody pages_list []
                fuel st it eq_refl Hne Hfuel Hit) as (st' & Hrun & H).
    exists st'. split; [exact Hrun|exact H].
Qed.

Lemma owners_pages_accumulate_witness :
  ∃ st', Direct.process_owners (Cases.paged_direct Cases.three_owner_pages) 3
           (IdInt 7) (State {[ IdInt 7 := Item "Cap" [] ]} 0 []) = Ok tt st' ∧
         items st' = {[ IdInt 7 := Item "Cap" [Owner "a" 3; Owner "b" 1; Owner "c" 1] ]} ∧
         requests (trace st') =
           [OwnersUrl (IdInt 7) 1; OwnersUrl (IdInt 7) 2; OwnersUrl (IdInt 7) 3].
Proof.
  destruct (owners_pages_accumulate
              (Cases.paged_direct Cases.three_owner_pages)
              (Cases.paged_bypass Cases.three_owner_pages)
              (IdInt 7) Cases.three_owner_pages 3
              (State {[ IdInt 7 := Item "Cap" [] ]} 0 []) (Item "Cap" []))
    as [Hd _].
  - discriminate.
  - repeat constructor; discriminate.
  - simpl. lia.
  - vm_compute. reflexivity.
  - destruct Hd as (st' & Hrun & Hitems & _ & Hreq).
    + intros n p l Hp Hl. split; [discriminate|]. eexists.
      split; [reflexivity|]. split; [exact Hl|reflexivity].
    + exists st'. split; [done|]. split.
      * rewrite Hitems. vm_compute. reflexivity.
      * rewrite Hreq. reflexivity.
Defined.

(** ** [process_data] *)

Section reading_facts.

Import Reading.

Lemma get_set d k v k' :
  get (set d k v) k' = if decide (k = k') then v else get d k'.
Proof.
  induction d as [|[k0 v0] d IH]; simpl.
  - repeat case_decide; congruence.
  - repeat (case_decide; simpl); try congruence.
Qed.

Lemma sum_values_set d k v :
  Report.sum (set d k v).*2 = Report.sum d.*2 - get d k + v.
Proof.
  unfold Report.sum. induction d as [|[k0 v0] d IH]; simpl; [lia|].
  case_decide; simpl; [lia|].
  change (list_fmap _ _ snd ?l) with (l.*2) in *. rewrite IH. lia.
Qed.

Lemma keys_set d k v :
  (set d k v).*1 = if decide (k ∈ d.*1) then d.*1 else d.*1 ++ [k].
Proof.
  induction d as [|[k0 v0] d IH]; cbn [set fmap list_fmap fst].
  - rewrite decide_False; [done|]. apply not_elem_of_nil.
  - destruct (decide (k0 = k)) as [->|Hne]; cbn [fmap list_fmap fst].
    + rewrite decide_True; [done|]. apply list_elem_of_here.
    + rewrite IH. destruct (decide (k ∈ d.*1)) as [Hin|Hout].
      * rewrite decide_True; [done|]. by apply list_elem_of_further.
      * rewrite decide_False; [done|]. apply not_elem_of_cons. by split.
Qed.

Lemma NoDup_keys_set d k v : NoDup d.*1 → NoDup (set d k v).*1.
Proof.
  intros H. rewrite keys_set. case_decide as Hin; [done|].
  apply NoDup_app. split_and!; [done| |apply NoDup_singleton].
  intros x Hx Hx'. apply list_elem_of_singleton in Hx'. by subst.
Qed.

Lemma sum_counts_app l1 l2 :
  sum_counts (l1 ++ l2) = sum_counts l1 + sum_counts l2.
Proof. unfold sum_counts. by rewrite fmap_app, sum_app. Qed.

Lemma sum_counts_cons o l : sum_counts (o :: l) = read_count o + sum_counts l.
Proof. done. Qed.

Lemma process_records_flat records acc :
  foldl count_record acc records = foldl count_owner acc (read_owners records).
Proof.
  revert acc. induction records as [|r records IH]; intros acc; [done|].
  cbn [foldl]. rewrite IH. unfold read_owners. cbn [fmap list_fmap concat].
  by rewrite foldl_app.
Qed.

(** What going through a list of owners does to the pair
    [(user_counts, total_lims)]. *)
Lemma count_owners_spec l acc :
  let res := foldl count_owner acc l in
  res.2 = acc.2 + sum_counts l ∧
  Report.sum res.1.*2 = Report.sum acc.1.*2 + sum_counts l ∧
  (NoDup acc.1.*1 → NoDup res.1.*1) ∧
  ∀ k, get res.1 k =
       get acc.1 k + sum_counts (filter (λ o, owner_name o = k) l).
Proof.
  revert acc. induction l as [|o l IH]; intros acc; simpl.
  - unfold sum_counts, Report.sum. simpl. repeat split; try lia; try done.
    all: intros; lia.
  - destruct (IH (count_owner acc o)) as (H1 & H2 & H3 & H4).
    rewrite sum_counts_cons. unfold count_owner in *. cbn [fst snd] in *.
    fold (read_count o) in *. split_and!.
    + rewrite H1. lia.
    + rewrite H2, sum_values_set. lia.
    + intros Hnd. by apply H3, NoDup_keys_set.
    + intros k. rewrite H4, get_set, filter_cons.
      repeat case_decide; try congruence; subst; rewrite ?sum_counts_cons; lia.
Qed.

End reading_facts.

Lemma process_records_total_aux (records : list Reading.record_obj) :
  ∃ uc, Reading.process_records records =
        (uc, Reading.sum_counts (Reading.read_owners records)).
Proof.
  unfold Reading.process_records. rewrite process_records_flat.
  destruct (count_owners_spec (Reading.read_owners records) ([], 0)) as (H1 & _).
  cbn [fst snd] in H1.
  destruct (foldl Reading.count_owner ([], 0) (Reading.read_owners records))
    as [uc tot].
  exists uc. f_equal. simpl in H1. lia.
Qed.

(** X13: [process_data] returns as [total_lims] the sum of the counts of
    all the owners of all the records, a missing [count] being 0 and a
    record without [owners] having none; the values of [user_counts] add
    up to the same number, and no key of [user_counts] comes twice. *)
Theorem process_records_total (records : list Reading.record_obj) :
  let res := Reading.process_records records in
  res.2 = Reading.sum_counts (Reading.read_owners records) ∧
  Report.sum res.1.*2 = res.2 ∧
  NoDup res.1.*1.
Proof.
  simpl. unfold Reading.process_records. rewrite process_records_flat.
  destruct (count_owners_spec (Reading.read_owners records) ([], 0))
    as (H1 & H2 & H3 & _).
  cbn [fst snd] in *. split_and!.
  - rewrite H1. lia.
  - rewrite H2, H1. unfold Report.sum. simpl. lia.
  - apply H3, NoDup_nil_2.
Qed.

(** X14: what [user_counts] holds for a name is the sum of the counts of
    the owners that carry it, over all the records; owners without a name
    are added up under the key [None]. *)
Theorem process_records_per_name
    (records : list Reading.record_obj) (k : option string) :
  Reading.get (Reading.process_records records).1 k =
  Reading.sum_counts
    (filter (λ o, Reading.owner_name o = k) (Reading.read_owners records)).
Proof.
  unfold Reading.process_records. rewrite process_records_flat.
  destruct (count_owners_spec (Reading.read_owners records) ([], 0))
    as (_ & _ & _ & H).
  rewrite H. simpl. lia.
Qed.

Example process_records_example :
  Reading.process_records
    [Reading.RecordObj (Some [Reading.OwnerObj (Some "x") (Some 2);
                              Reading.OwnerObj (Some "y") None;
                              Reading.OwnerObj None (Some 4)]);
     Reading.RecordObj None;
     Reading.RecordObj (Some [Reading.OwnerObj (Some "x") (Some 1)])]
  = ([(Some "x", 3); (Some "y", 0); (None, 4)], 7).
Proof. reflexivity. Qed.

Section saved_file_facts.

Import Reading.

Lemma member_set_new {V} (d : list (string * V)) k v :
  k ∉ d.*1 → member_set d k v = d ++ [(k, v)].
Proof.
  induction d as [|[k' v'] d IH]; simpl; [done|].
  intros H. apply not_elem_of_cons in H as [H1 H2].
  case_decide; [congruence|]. by rewrite IH.
Qed.

(** A document whose keys are all different is loaded member for member. *)
Lemma json_load_NoDup {V} (doc : list (string * V)) :
  NoDup doc.*1 → json_load doc = doc.
Proof.
  unfold json_load. induction doc as [|[k v] doc IH] using rev_ind; [done|].
  rewrite fmap_app, foldl_app. simpl. intros H.
  apply NoDup_app in H as (Hl & Hk & _). rewrite IH by done.
  apply member_set_new. intros Hin. apply (Hk k Hin), list_elem_of_here.
Qed.

Lemma dump_keys_NoDup (m : gmap item_id item) :
  (∀ k k', is_Some (m !! k) → is_Some (m !! k') →
           Snapshot.json_key k = Snapshot.json_key k' → k = k') →
  NoDup (Snapshot.dump m).*1.
Proof.
  intros Hinj. unfold Snapshot.dump. rewrite <- list_fmap_compose.
  apply NoDup_fmap_2_strong; [|apply NoDup_map_to_list].
  intros [k v] [k' v'] Hin Hin' Heq. simpl in Heq.
  apply elem_of_map_to_list in Hin, Hin'.
  assert (k = k') as -> by (apply Hinj; eauto). congruence.
Qed.

Lemma dump_values (m : gmap item_id item) :
  (Snapshot.dump m).*2 = (map_to_list m).*2.
Proof.
  unfold Snapshot.dump. rewrite <- list_fmap_compose. apply list_fmap_ext.
  by intros _ [k v] _.
Qed.

Lemma sum_counts_as_read (l : list owner) :
  sum_counts ((λ o, OwnerObj (Some (name o)) (Some (count o))) <$> l) = total l.
Proof.
  induction l as [|o l IH]; [done|].
  rewrite fmap_cons, sum_counts_cons, IH. done.
Qed.

Lemma sum_counts_read_items (its : list item) :
  sum_counts (read_owners (as_read <$> its)) =
  Report.sum ((λ it, total (owners it)) <$> its).
Proof.
  unfold read_owners. induction its as [|it its IH]; [done|].
  rewrite !fmap_cons. cbn [concat]. rewrite sum_counts_app, IH.
  unfold as_read at 1. cbn [record_owners default from_option Datatypes.id].
  by rewrite sum_counts_as_read.
Qed.

End saved_file_facts.

(** X15: on the file that [save_owners] wrote for a snapshot in which no
    two ids are written as the same key, [process_data] returns as
    [total_lims] the sum of all the counts the snapshot holds. *)
Theorem process_data_of_saved
    (m : gmap item_id item) (path : string) (fs : Snapshot.file_system) :
  (∀ k k', is_Some (m !! k) → is_Some (m !! k') →
           Snapshot.json_key k = Snapshot.json_key k' → k = k') →
  ∃ user_counts,
    Reading.process_data path (Snapshot.save_owners m path fs) =
    Some (user_counts, Reading.snapshot_total m).
Proof.
  intros Hinj. unfold Reading.process_data, Snapshot.save_owners,
    Snapshot.file_system in *.
  rewrite lookup_insert_eq. cbn [mbind option_bind].
  rewrite json_load_NoDup by by apply dump_keys_NoDup.
  destruct (process_records_total_aux (Reading.as_read <$> (Snapshot.dump m).*2))
    as [uc Huc].
  exists uc. rewrite Huc. do 2 f_equal.
  rewrite sum_counts_read_items, dump_values. unfold Reading.snapshot_total.
  by rewrite <- list_fmap_compose.
Qed.

Lemma process_data_of_saved_witness :
  ∃ user_counts,
    Reading.process_data "owners.json"
      (Snapshot.save_owners Scenarios.hat_snapshot "owners.json" ∅) =
    Some (user_counts, Reading.snapshot_total Scenarios.hat_snapshot).
Proof.
  apply (process_data_of_saved Scenarios.hat_snapshot "owners.json" ∅).
  intros k k' Hk Hk' _. unfold Scenarios.hat_snapshot in *.
  destruct (decide (k = IdInt 10)) as [->|Hne];
    [|rewrite lookup_singleton_ne in Hk by done; by destruct Hk].
  destruct (decide (k' = IdInt 10)) as [->|Hne'];
    [done|rewrite lookup_singleton_ne in Hk' by done; by destruct Hk'].
Defined.

(** ** The charts' input and the README line *)

Section charts_facts.

Import Report.

Lemma sum_take_drop n (l : list Z) : sum l = sum (take n l) + sum (drop n l).
Proof. by rewrite <- sum_app, take_drop. Qed.

Lemma slice_to_nonneg {A} (l : list A) k :
  0 ≤ k → slice_to l k = take (Z.to_nat k) l.
Proof. intros H. unfold slice_to. by rewrite decide_False by lia. Qed.

Lemma filter_insert_desc (c : Z) x l :
  filter (λ kv : string * Z, kv.2 = c) (insert_desc x l) =
  filter (λ kv : string * Z, kv.2 = c) (x :: l).
Proof.
  induction l as [|y l IH]; simpl; [done|].
  case_decide as Hxy; [|done].
  rewrite (filter_cons _ y), IH, !filter_cons.
  repeat case_decide; try done; lia.
Qed.

(** Entries with the same count come out of the sort in the order in
    which they went in. *)
Lemma sorted_desc_stable (c : Z) l :
  filter (λ kv : string * Z, kv.2 = c) (sorted_desc l) =
  filter (λ kv : string * Z, kv.2 = c) l.
Proof.
  induction l as [|x l IH]; simpl; [done|].
  by rewrite filter_insert_desc, !filter_cons, IH.
Qed.

Lemma sorted_counts_NoDup d : NoDup (keys d) → sorted_counts d = sorted_desc d.
Proof.
  intros H. unfold sorted_counts. apply dict_of_NoDup.
  unfold keys in *. by rewrite (sorted_desc_Permutation d).
Qed.

Lemma length_dict_set d k v : (length (dict_set d k v) ≤ S (length d))%nat.
Proof.
  induction d as [|[k' v'] d IH]; simpl; [lia|]. case_decide; simpl; lia.
Qed.

End charts_facts.

(** X16: when [aggregate_others] is given more than [top_n >= 0] entries
    with different labels and none of the first [top_n] reads Others, the
    result is these [top_n] entries, in their order, followed by Others
    with the sum of all the entries left out; its values add up to those
    of the input. *)
Theorem aggregate_others_shape (user_counts : Report.dict) (top_n : Z) :
  NoDup (Report.keys user_counts) →
  0 ≤ top_n < Z.of_nat (length user_counts) →
  "Others" ∉ Report.keys (take (Z.to_nat top_n) user_counts) →
  Report.aggregate_others user_counts top_n =
    take (Z.to_nat top_n) user_counts ++
    [("Others", Report.sum (Report.values (drop (Z.to_nat top_n) user_counts)))]
  ∧ Report.sum (Report.values (Report.aggregate_others user_counts top_n)) =
    Report.sum (Report.values user_counts).
Proof.
  intros Hnd Hn Ho.
  assert (Report.aggregate_others user_counts top_n =
          take (Z.to_nat top_n) user_counts ++
          [("Others", Report.sum (Report.values (drop (Z.to_nat top_n) user_counts)))])
    as Heq.
  { unfold Report.aggregate_others. rewrite decide_False by lia.
    rewrite slice_to_nonneg by lia.
    rewrite dict_of_NoDup by by apply NoDup_keys_take.
    rewrite dict_set_new by done. do 3 f_equal.
    unfold Report.values. rewrite fmap_take, fmap_drop.
    rewrite (sum_take_drop (Z.to_nat top_n) (user_counts.*2)). lia. }
  split; [done|]. rewrite Heq. unfold Report.values.
  rewrite fmap_app, sum_app, fmap_take, fmap_drop.
  rewrite (sum_take_drop (Z.to_nat top_n) (user_counts.*2)).
  unfold Report.sum at 2. simpl. lia.
Qed.

Lemma aggregate_others_shape_witness :
  Report.aggregate_others
    [("carol", 9); ("alice", 5); ("bob", 3); ("dave", 1)] 2 =
  take (Z.to_nat 2) [("carol", 9); ("alice", 5); ("bob", 3); ("dave", 1)] ++
  [("Others",
    Report.sum (Report.values
      (drop (Z.to_nat 2) [("carol", 9); ("alice", 5); ("bob", 3); ("dave", 1)])))].
Proof.
  apply (aggregate_others_shape
           [("carol", 9); ("alice", 5); ("bob", 3); ("dave", 1)] 2).
  - apply (bool_decide_unpack (NoDup ["carol"; "alice"; "bob"; "dave"])).
    vm_compute. exact I.
  - simpl. lia.
  - apply (bool_decide_unpack ("Others" ∉ ["carol"; "alice"])).
    vm_compute. exact I.
Defined.

(** X17: the sorted dict that [main] builds from counts with different
    labels holds the same entries, the larger counts first, and entries
    with equal counts in the order they had before. *)
Theorem sorted_counts_spec (user_counts : Report.dict) :
  NoDup (Report.keys user_counts) →
  Report.sorted_counts user_counts ≡ₚ user_counts ∧
  Sorted (λ a b, b.2 ≤ a.2) (Report.sorted_counts user_counts) ∧
  ∀ c, filter (λ kv : string * Z, kv.2 = c) (Report.sorted_counts user_counts) =
       filter (λ kv : string * Z, kv.2 = c) user_counts.
Proof.
  intros Hnd. rewrite sorted_counts_NoDup by done. split_and!.
  - apply sorted_desc_Permutation.
  - apply sorted_desc_sorted.
  - intros c. apply sorted_desc_stable.
Qed.

Lemma sorted_counts_spec_witness :
  Report.sorted_counts [("a", 1); ("b", 3); ("c", 1); ("d", 3)] ≡ₚ
  [("a", 1); ("b", 3); ("c", 1); ("d", 3)].
Proof.
  apply (sorted_counts_spec [("a", 1); ("b", 3); ("c", 1); ("d", 3)]).
  apply (bool_decide_unpack (NoDup ["a"; "b"; "c"; "d"])). vm_compute. exact I.
Defined.

Example sorted_counts_ties :
  Report.sorted_counts [("a", 1); ("b", 3); ("c", 1); ("d", 3)] =
  [("b", 3); ("d", 3); ("a", 1); ("c", 1)].
Proof. reflexivity. Qed.

(** X18: from counts with different labels, [main] makes [top_10] the
    first ten entries of the sorted counts (all of them when there are
    fewer) and gives the pie chart at most eleven slices: the sorted
    counts themselves when there are at most ten users, and otherwise,
    when none of the ten is called Others, [top_10] followed by Others
    with the sum of the rest. *)
Theorem charts_input (user_counts : Report.dict) :
  NoDup (Report.keys user_counts) →
  Reading.top_10 user_counts = take 10 (Report.sorted_counts user_counts) ∧
  (length (Reading.top_10 user_counts) ≤ 10)%nat ∧
  (length (Reading.with_others user_counts) ≤ 11)%nat ∧
  ((length user_counts ≤ 10)%nat →
   Reading.with_others user_counts = Report.sorted_counts user_counts ∧
   Reading.top_10 user_counts = Report.sorted_counts user_counts) ∧
  ((10 < length user_counts)%nat →
   "Others" ∉ Report.keys (Reading.top_10 user_counts) →
   Reading.with_others user_counts =
   Reading.top_10 user_counts ++
   [("Others",
     Report.sum (Report.values (drop 10 (Report.sorted_counts user_counts))))]).
Proof.
  intros Hnd.
  assert (length (Report.sorted_counts user_counts) = length user_counts) as Hlen.
  { rewrite sorted_counts_NoDup by done.
    apply Permutation_length, sorted_desc_Permutation. }
  assert (NoDup (Report.keys (Report.sorted_counts user_counts))) as Hnd'.
  { rewrite sorted_counts_NoDup by done. unfold Report.keys in *.
    by rewrite (sorted_desc_Permutation user_counts). }
  assert (Reading.top_10 user_counts = take 10 (Report.sorted_counts user_counts))
    as Htop.
  { unfold Reading.top_10. rewrite slice_to_nonneg by lia.
    change (Z.to_nat 10) with 10%nat. apply dict_of_NoDup.
    by apply NoDup_keys_take. }
  split_and!.
  - done.
  - rewrite Htop, length_take. lia.
  - unfold Reading.with_others, Report.aggregate_others. case_decide.
    + lia.
    + etrans; [apply length_dict_set|].
      fold (Reading.top_10 user_counts). rewrite Htop, length_take. lia.
  - intros Hfew. split.
    + unfold Reading.with_others. apply aggregate_others_copy. lia.
    + rewrite Htop. apply take_ge. lia.
  - intros Hmany Ho. rewrite Htop in *.
    unfold Reading.with_others, Report.aggregate_others.
    rewrite decide_False by lia. rewrite slice_to_nonneg by lia.
    change (Z.to_nat 10) with 10%nat.
    rewrite dict_of_NoDup by by apply NoDup_keys_take.
    rewrite dict_set_new by done. do 3 f_equal.
    unfold Report.values. rewrite fmap_take, fmap_drop.
    rewrite (sum_take_drop 10 ((Report.sorted_counts user_counts).*2)). lia.
Qed.

Lemma charts_input_witness :
  Reading.top_10 Scenarios.four_users =
  take 10 (Report.sorted_counts Scenarios.four_users).
Proof.
  destruct (charts_input Scenarios.four_users) as [H _]; [|exact H].
  apply (bool_decide_unpack (NoDup ["alice"; "bob"; "carol"; "dave"])).
  vm_compute. exact I.
Defined.

Section readme_facts.

Import Reading.

Lemma fun_fact_has_prefix total_lims :
  String.prefix FUN_FACT_PREFIX (fun_fact total_lims) = true.
Proof. reflexivity. Qed.

End readme_facts.

(** X19: the README update keeps the number of lines, leaves alone every
    line that does not start with the Fun fact opening, and puts the new
    sentence in place of every line that does; since the new sentence
    starts with that opening too, running the update again with another
    total gives what that total alone would have given. *)
Theorem update_readme_spec (lines : list string) (t1 t2 : Z) :
  length (Reading.update_readme lines t1) = length lines ∧
  (∀ n line, lines !! n = Some line →
     Reading.update_readme lines t1 !! n =
     Some (if String.prefix Reading.FUN_FACT_PREFIX line
           then Reading.fun_fact t1 else line)) ∧
  Reading.update_readme (Reading.update_readme lines t1) t2 =
  Reading.update_readme lines t2.
Proof.
  unfold Reading.update_readme. split_and!.
  - by rewrite length_fmap.
  - intros n line Hn. by rewrite list_lookup_fmap, Hn.
  - rewrite <- list_fmap_compose. apply list_fmap_ext. intros _ line _. simpl.
    destruct (String.prefix Reading.FUN_FACT_PREFIX line) eqn:E.
    + by rewrite fun_fact_has_prefix.
    + by rewrite E.
Qed.

Example update_readme_example :
  Reading.update_readme
    ["# all-limiteds" +:+ Reading.newline;
     "**Fun fact:** There are over **12** limited copies!" +:+ Reading.newline;
     "Fun fact: none" +:+ Reading.newline] 345 =
    ["# all-limiteds" +:+ Reading.newline;
     "**Fun fact:** There are over **345** limited copies!" +:+ Reading.newline;
     "Fun fact: none" +:+ Reading.newline].
Proof. vm_compute. reflexivity. Qed.

(** ** How much of a snapshot comes back *)

Section snapshot_sizes.

Import Snapshot.

Lemma size_load_le doc : (size (load doc) ≤ length doc)%nat.
Proof.
  induction doc as [|[k v] doc IH] using rev_ind; [done|].
  rewrite load_snoc, length_app, map_size_insert. simpl.
  destruct (load doc !! IdStr k); simpl; lia.
Qed.

Lemma load_lookup_fresh doc k :
  k ∉ doc.*1 → load doc !! IdStr k = None.
Proof.
  induction doc as [|[k' v'] doc IH] using rev_ind; intros H; [done|].
  rewrite fmap_app in H. apply not_elem_of_app in H as [H1 H2].
  rewrite load_snoc, lookup_insert_ne; [by apply IH|].
  intros [= ->]. apply H2, list_elem_of_here.
Qed.

Lemma size_load_NoDup doc : NoDup doc.*1 → size (load doc) = length doc.
Proof.
  induction doc as [|[k v] doc IH] using rev_ind; [done|].
  rewrite fmap_app. intros H. apply NoDup_app in H as (Hd & Hk & _).
  rewrite load_snoc, length_app, map_size_insert, load_lookup_fresh.
  - simpl. rewrite IH by done. lia.
  - intros Hin. apply (Hk k Hin), list_elem_of_here.
Qed.

Lemma length_dump (m : gmap item_id item) : length (dump m) = size m.
Proof. unfold dump. by rewrite length_fmap, length_map_to_list. Qed.

End snapshot_sizes.

(** X20: the file written for a snapshot has one member for each of its
    items; loading it gives at most as many items as were saved, and
    exactly as many when no two ids of the snapshot are written as the
    same key. *)
Theorem saved_and_loaded_sizes (m : gmap item_id item) :
  length (Snapshot.dump m) = size m ∧
  (size (Snapshot.load (Snapshot.dump m)) ≤ size m)%nat ∧
  ((∀ k k', is_Some (m !! k) → is_Some (m !! k') →
            Snapshot.json_key k = Snapshot.json_key k' → k = k') →
   size (Snapshot.load (Snapshot.dump m)) = size m).
Proof.
  split_and!.
  - apply length_dump.
  - etrans; [apply size_load_le|]. by rewrite length_dump.
  - intros Hinj. rewrite size_load_NoDup by by apply dump_keys_NoDup.
    apply length_dump.
Qed.

(** An integer id and a string id with the same digits: two items are
    saved and one comes back. *)
Example colliding_ids_lose_an_item :
  let m : gmap item_id item :=
    {[ IdInt 1 := Item "Hat" []; IdStr "1" := Item "Cap" [] ]} in
  size m = 2%nat ∧ size (Snapshot.load (Snapshot.dump m)) = 1%nat.
Proof. split; vm_compute; reflexivity. Qed.
